(** * ComicCrafter-AI, BACKEND/generate_panels.py: the response parsers

    A shallow embedding of the two text parsers of [generate_panels.py]
    ([extract_panel_info], [extract_story_info]) and of the art-style
    selection of its [__main__] block, together with the part of Python's
    [re] and [str] that they call.

    Texts are lists of 8-bit characters, read as the code points U+0000 to
    U+00FF; the character classes and case mappings below are the ones of
    Python 3 on that range. *)

From Stdlib Require Import Ascii String DecimalString.
From stdpp Require Import base list gmap strings.

Local Open Scope list_scope.

Abbreviation str := (list ascii).

(** A Python string literal. *)
Definition txt (s : string) : str := list_ascii_of_string s.

(** ** Characters *)

Module Char.

Definition code (c : ascii) : nat := nat_of_ascii c.

Definition between (lo hi : nat) (c : ascii) : bool :=
  (lo <=? code c) && (code c <=? hi).

Definition newline : ascii := "010"%char.
Definition dquote : ascii := "034"%char.
Definition space : ascii := " "%char.

(** [\s], and the characters [str.strip] removes. *)
Definition is_space (c : ascii) : bool :=
  between 9 13 c || between 28 32 c || (code c =? 133) || (code c =? 160).

(** [\d] *)
Definition is_digit (c : ascii) : bool := between 48 57 c.

(** [\w]: alphanumeric characters and the underscore. *)
Definition is_word (c : ascii) : bool :=
  between 48 57 c || between 65 90 c || (code c =? 95) || between 97 122 c
  || (code c =? 170) || between 178 179 c || (code c =? 181)
  || between 185 186 c || between 188 190 c || between 192 214 c
  || between 216 246 c || between 248 255 c.

(** [.] without [re.DOTALL] *)
Definition not_newline (c : ascii) : bool := negb (code c =? 10).

(** Any character but the double quote (the class of the quoted text). *)
Definition not_dquote (c : ascii) : bool := negb (code c =? 34).

Definition is_upper (c : ascii) : bool :=
  between 65 90 c || between 192 214 c || between 216 222 c.

(** The lower-case letters whose upper-case form is again below U+0100
    (all but U+00B5, U+00DF and U+00FF). *)
Definition is_lower (c : ascii) : bool :=
  between 97 122 c || between 224 246 c || between 248 254 c.

Definition lower (c : ascii) : ascii :=
  if is_upper c then ascii_of_nat (code c + 32) else c.

(** The upper-case forms of U+00B5 and U+00FF lie above U+00FF and the one
    of U+00DF has two letters; [upper] leaves the three unchanged. The
    program only compares a capitalized text with the four style names,
    none of which starts with these or with their upper-case forms. *)
Definition upper (c : ascii) : ascii :=
  if is_lower c then ascii_of_nat (code c - 32) else c.

(** A literal pattern character. *)
Definition exactly (x : ascii) (c : ascii) : bool := code c =? code x.

(** A literal pattern character under [re.IGNORECASE]. *)
Definition ignoring_case (x : ascii) (c : ascii) : bool := code (lower c) =? code (lower x).

End Char.

(** ** The part of [str] the parsers use *)

Fixpoint lstrip (s : str) : str :=
  match s with
  | c :: s' => if Char.is_space c then lstrip s' else s
  | [] => []
  end.

Definition rstrip (s : str) : str := rev (lstrip (rev s)).

(** [s.strip()] *)
Definition strip (s : str) : str := rstrip (lstrip s).

(** [s.lower()] *)
Definition lower (s : str) : str := map Char.lower s.

(** [s.capitalize()] *)
Definition capitalize (s : str) : str :=
  match s with
  | [] => []
  | c :: s' => Char.upper c :: map Char.lower s'
  end.

(** [sep.join(l)] *)
Fixpoint join (sep : str) (l : list str) : str :=
  match l with
  | [] => []
  | [x] => x
  | x :: l' => x ++ sep ++ join sep l'
  end.

(** [bool(s)]: a string is true when it is not empty. *)
Definition truthy (s : str) : bool :=
  match s with [] => false | _ :: _ => true end.

(** [str(n)] for a length. *)
Definition str_of_nat (n : nat) : str := txt (NilZero.string_of_uint (Nat.to_uint n)).

(** [x in l] for a list of strings. *)
Definition in_list (x : str) (l : list str) : bool := bool_decide (x ∈ l).

(** ** The part of [re] the parsers use

    Every pattern of the program is a sequence of single-character items,
    each taken once, or under a greedy [*] or [+]; a parenthesised item is a
    capture group. *)

Inductive quant := One | Star | Plus.

Record atom := Atom { cls : ascii -> bool; rep : quant; grp : bool }.

Abbreviation regex := (list atom).

(** A greedy repetition: take as many characters of class [p] as there are,
    and give them back one by one while the rest of the pattern [k] fails. *)
Fixpoint greedy {A} (p : ascii -> bool) (k : str -> str -> option A)
    (taken s : str) : option A :=
  match s with
  | c :: s' =>
      if p c then
        match greedy p k (taken ++ [c]) s' with
        | Some x => Some x
        | None => k taken s
        end
      else k taken s
  | [] => k taken s
  end.

(** A match of the rest of the pattern, with the text [t] of the item before
    it. *)
Definition add_chunk (t : str) (m : option (list str * str)) : option (list str * str) :=
  match m with
  | Some (ts, rest) => Some (t :: ts, rest)
  | None => None
  end.

(** Match [r] at the start of [s]: the text taken by each item, and the text
    left after the match. *)
Fixpoint match_here (r : regex) (s : str) : option (list str * str) :=
  match r with
  | [] => Some ([], s)
  | a :: r' =>
      let k (t rest : str) := add_chunk t (match_here r' rest) in
      match rep a, s with
      | Star, _ => greedy (cls a) k [] s
      | _, [] => None
      | One, c :: s' => if cls a c then k [c] s' else None
      | Plus, c :: s' => if cls a c then greedy (cls a) k [c] s' else None
      end
  end.

(** The texts of the capture groups of a match. *)
Fixpoint groups (r : regex) (ts : list str) : list str :=
  match r, ts with
  | a :: r', t :: ts' => if grp a then t :: groups r' ts' else groups r' ts'
  | _, _ => []
  end.

(** [re.search(r, s)]: the leftmost match, as the text before it, the texts
    its items took and the text after it. *)
Fixpoint re_search (r : regex) (s : str) : option (str * list str * str) :=
  match match_here r s with
  | Some (ts, rest) => Some ([], ts, rest)
  | None =>
      match s with
      | [] => None
      | c :: s' =>
          match re_search r s' with
          | Some (pre, ts, rest) => Some (c :: pre, ts, rest)
          | None => None
          end
      end
  end.

(** [m.group(n)] for [n >= 1], of a match [m] of [r] that took [ts] *)
Definition group (r : regex) (ts : list str) (n : nat) : str := nth (n - 1) (groups r ts) [].

(** The scan of [re.split] and [re.findall]: successive leftmost matches,
    each search starting where the previous match ended. No pattern of the
    program matches the empty string, so every match shortens the text and
    [length s] rounds are enough (see [re_split_unfold], [re_findall_unfold]). *)
Fixpoint split_loop (n : nat) (r : regex) (s : str) : list str :=
  match n with
  | 0 => [s]
  | S n' =>
      match re_search r s with
      | None => [s]
      | Some (pre, ts, rest) => pre :: groups r ts ++ split_loop n' r rest
      end
  end.

(** [re.split(r, s)]: the texts between the matches, each followed by the
    groups of the match that ends it. *)
Definition re_split (r : regex) (s : str) : list str := split_loop (length s) r s.

Fixpoint findall_loop (n : nat) (r : regex) (s : str) : list str :=
  match n with
  | 0 => []
  | S n' =>
      match re_search r s with
      | None => []
      | Some (_, ts, rest) => groups r ts ++ findall_loop n' r rest
      end
  end.

(** [re.findall(r, s)] for a pattern with one group: the group of every
    match. *)
Definition re_findall (r : regex) (s : str) : list str := findall_loop (length s) r s.

(** ** The patterns *)

Definition lit (s : string) : regex :=
  map (fun x => Atom (Char.exactly x) One false) (txt s).

(** A literal under [re.IGNORECASE]. *)
Definition lit_i (s : string) : regex :=
  map (fun x => Atom (Char.ignoring_case x) One false) (txt s).

(** [# Panel \d+] *)
Definition panel_re : regex :=
  lit "# Panel " ++ [Atom Char.is_digit Plus false].

(** [Description:\s*(.+)] with [re.IGNORECASE] *)
Definition description_re : regex :=
  lit_i "Description:" ++
  [Atom Char.is_space Star false; Atom Char.not_newline Plus true].

(** The pattern of a quoted dialogue, with [re.IGNORECASE | re.DOTALL]:
    [Text:], [\s*], a double quote, a group of one or more characters other
    than the double quote, a double quote. *)
Definition text_re : regex :=
  lit_i "Text:" ++
  [Atom Char.is_space Star false; Atom (Char.exactly Char.dquote) One false;
   Atom Char.not_dquote Plus true; Atom (Char.exactly Char.dquote) One false].

(** [#\s*(\w+)] *)
Definition heading_re : regex :=
  [Atom (Char.exactly "#"%char) One false; Atom Char.is_space Star false;
   Atom Char.is_word Plus true].

(** ** Exceptions *)

Inductive exn :=
  | ValueError (msg : str)
  | IndexError.

Abbreviation result A := (exn + A)%type.

(** [l[i]] *)
Definition index (l : list str) (i : nat) : result str :=
  match l !! i with
  | Some x => inr x
  | None => inl IndexError
  end.

(** [range(start, stop, step)] for [step > 0] *)
Definition py_range (start stop step : nat) : list nat :=
  map (fun k => start + k * step) (seq 0 ((stop - start + (step - 1)) / step)).

(** [for i in indices: st = body(i, st)], stopping at the first exception. *)
Fixpoint for_each {S} (body : nat -> S -> result S) (indices : list nat) (st : S)
    : result S :=
  match indices with
  | [] => inr st
  | i :: is' =>
      match body i st with
      | inl e => inl e
      | inr st' => for_each body is' st'
      end
  end.

(** ** [extract_panel_info] *)

Record PanelInfo := { Description : str; Text : str }.

(** The body of the loop for one block that is not blank. *)
Definition panel_of_block (block : str) : PanelInfo :=
  let desc_match := re_search description_re block in
  let text_match := re_findall text_re block in
  {| Description :=
       match desc_match with
       | Some (_, ts, _) => strip (group description_re ts 1)
       | None => txt "Unknown scene."
       end;
     Text := if bool_decide (text_match = []) then txt "..." else join (txt " ") text_match |}.

(** The loop over the blocks. *)
Definition panel_loop (panel_blocks : list str) : list PanelInfo :=
  fold_left
    (fun panel_info_list block =>
       if truthy (strip block) then panel_info_list ++ [panel_of_block block]
       else panel_info_list)
    panel_blocks [].

Definition panel_count_message (n : nat) : str :=
  txt "Expected 6 panels, but got " ++ str_of_nat n ++ txt ". Check Gemini's output.".

Definition extract_panel_info (text : str) : result (list PanelInfo) :=
  let panel_blocks := re_split panel_re text in
  let panel_info_list := panel_loop panel_blocks in
  if bool_decide (length panel_info_list ≠ 6) then
    inl (ValueError (panel_count_message (length panel_info_list)))
  else inr panel_info_list.

(** ** [extract_story_info] *)

Definition story_sections : list str :=
  [txt "title"; txt "introduction"; txt "storyline"; txt "climax"; txt "moral"].

(** The body of the loop at index [i]. *)
Definition story_step (sections : list str) (i : nat) (story_info : gmap str str)
    : result (gmap str str) :=
  match index sections i with
  | inl e => inl e
  | inr name =>
      let section_name := lower name in
      match index sections (i + 1) with
      | inl e => inl e
      | inr content =>
          let section_content := strip content in
          if in_list section_name story_sections
          then inr (<[section_name := section_content]> story_info)
          else inr story_info
      end
  end.

Definition extract_story_info (text : str) : result (gmap str str) :=
  let sections := re_split heading_re text in
  for_each (story_step sections) (py_range 1 (length sections) 2) ∅.

(** ** The art style chosen in [__main__] *)

Definition valid_styles : list str :=
  [txt "Manga"; txt "Anime"; txt "American"; txt "Belgian"].

(** The art style handed to [generate_panels], from the line the user
    entered. *)
Definition main_art_style (entered : str) : str :=
  let art_style := capitalize (strip entered) in
  if negb (in_list art_style valid_styles) then txt "Anime" else art_style.

(** ** Sample runs *)

Definition quoted (s : string) : str := Char.dquote :: txt s ++ [Char.dquote].
Definition nl : str := [Char.newline].

Definition sample_block (n : string) : str :=
  txt "# Panel " ++ txt n ++ nl ++ txt "Description: hero, city" ++ nl ++
  txt "Text: " ++ quoted "Hero: Stop!" ++ nl.

Definition sample_text : str :=
  sample_block "1" ++ sample_block "2" ++ sample_block "3" ++
  sample_block "4" ++ sample_block "5" ++ sample_block "6".

Definition sample_record : PanelInfo :=
  {| Description := txt "hero, city"; Text := txt "Hero: Stop!" |}.

(** * What the patterns mean *)

(** [t] is a text the item [a] can take. *)
Definition fits (a : atom) (t : str) : Prop :=
  Forall (fun c => cls a c = true) t /\
  match rep a with
  | One => length t = 1
  | Star => True
  | Plus => t <> []
  end.

(** [ts] gives each item of [r] a text it can take: [concat ts] is a text
    the pattern matches. *)
Definition parses (r : regex) (ts : list str) : Prop := Forall2 fits r ts.

(** The order in which a backtracking matcher tries the ways to match: the
    first greedy item that can take more does. *)
Inductive prefers : list str -> list str -> Prop :=
  | prefers_nil : prefers [] []
  | prefers_longer t ts t' ts' : length t' < length t -> prefers (t :: ts) (t' :: ts')
  | prefers_same t ts ts' : prefers ts ts' -> prefers (t :: ts) (t :: ts').

(** The pattern matches somewhere in [s]. *)
Definition occurs (r : regex) (s : str) : Prop :=
  exists pre ts rest, s = pre ++ concat ts ++ rest /\ parses r ts.

(** The match [re.search] reports: leftmost, and among the matches that
    start there the one tried first. *)
Definition first_match (r : regex) (s pre : str) (ts : list str) (rest : str) : Prop :=
  s = pre ++ concat ts ++ rest /\ parses r ts /\
  (forall pre' ts' rest',
      s = pre' ++ concat ts' ++ rest' -> parses r ts' ->
      length pre <= length pre' /\ (length pre' = length pre -> prefers ts ts')).

(** A pattern with an item that is not under [*] takes at least one
    character. *)
Definition productive (r : regex) : Prop := Exists (fun a => rep a <> Star) r.

(** [split_by r s pre blocks]: the successive matches of [r] in [s], each
    found as [re.search] finds it in the text left after the previous one,
    cut [s] into [pre] and then, for each match, the texts [ts] it took and
    the text [piece] between it and the next match (or the end). *)
Inductive split_by (r : regex) : str -> str -> list (list str * str) -> Prop :=
  | split_by_end s : ~ occurs r s -> split_by r s s []
  | split_by_match s pre ts rest piece blocks :
      first_match r s pre ts rest -> split_by r rest piece blocks ->
      split_by r s pre ((ts, piece) :: blocks).

(** The cut computed. *)
Fixpoint scan_loop (n : nat) (r : regex) (s : str) : str * list (list str * str) :=
  match n with
  | 0 => (s, [])
  | S n' =>
      match re_search r s with
      | None => (s, [])
      | Some (pre, ts, rest) =>
          let cut := scan_loop n' r rest in (pre, (ts, cut.1) :: cut.2)
      end
  end.

Definition scan (r : regex) (s : str) : str * list (list str * str) := scan_loop (length s) r s.

(** A text of white space only: [s.strip()] is empty. *)
Definition blank (s : str) : Prop := Forall (fun c => Char.is_space c = true) s.

(** The records the loop of [extract_panel_info] makes of the blocks. *)
Definition panel_records (text : str) : list PanelInfo := panel_loop (re_split panel_re text).

(** A heading and the text after it, as [re.split] gives them. *)
Definition heading_pair (sec : list str * str) : list str :=
  [group heading_re sec.1 1; sec.2].

(** The key of a heading: its word in lower case. *)
Definition section_key (sec : list str * str) : str := lower (group heading_re sec.1 1).

(** What one round of the loop of [extract_story_info] does to the mapping. *)
Definition store_section (story_info : gmap str str) (sec : list str * str) : gmap str str :=
  if in_list (section_key sec) story_sections
  then <[section_key sec := strip sec.2]> story_info
  else story_info.

(** Sample story texts. *)
Definition story_text : str :=
  txt "# Moral" ++ nl ++ txt "Be kind." ++ nl ++
  txt "# Title" ++ nl ++ txt " The Brave Cat " ++ nl ++
  txt "# Footer" ++ nl ++ txt "made with care" ++ nl ++
  txt "# Climax" ++ nl ++ txt "The cat jumps." ++ nl ++
  txt "# Introduction" ++ nl ++ txt "A cat lives in a city." ++ nl ++
  txt "#Storyline" ++ nl ++ txt "It meets a dog." ++ nl.

Definition story_twice : str :=
  txt "# Title" ++ nl ++ txt "First" ++ nl ++
  txt "# Moral" ++ nl ++ txt "Be kind." ++ nl ++
  txt "# TITLE" ++ nl ++ txt "Second" ++ nl.

(** The lines of a text: the parts between its line breaks. *)
Fixpoint lines (s : str) : list str :=
  match s with
  | [] => [[]]
  | c :: s' =>
      if Char.exactly Char.newline c then [] :: lines s'
      else match lines s' with
           | line :: rest => (c :: line) :: rest
           | [] => [[c]]
           end
  end.

(** Sample blocks. *)
Definition no_label_block : str := txt "hero, city, sunset".

Definition next_line_block : str :=
  nl ++ txt "DESCRIPTION:" ++ nl ++ txt "  hero, city  " ++ nl ++ txt "second line".

(** A block whose label ends its line, the dialogue on the next line. *)
Definition label_then_text_block : str :=
  txt "Description:" ++ nl ++ txt "Text: " ++ quoted "hi".

(** A block with the label on a line of its own and nothing after it. *)
Definition bare_label_block : str := nl ++ txt "Description:" ++ nl.

(** A text with a preamble and six delimiters, the third block blank. *)
Definition blank_block_text : str :=
  txt "Here are your panels:" ++ nl ++
  txt "# Panel 1 Description: a" ++ nl ++ txt "# Panel 2 Description: b" ++ nl ++
  txt "# Panel 3" ++ nl ++ txt "# Panel 4 Description: d" ++ nl ++
  txt "# Panel 5 Description: e" ++ nl ++ txt "# Panel 6 Description: f".

(** The sample text after a line of introduction. *)
Definition preamble_text : str := txt "Here are your panels:" ++ nl ++ sample_text.

(** A block with two quoted dialogues. *)
Definition two_dialogues : str :=
  txt "Description: hero, city" ++ nl ++
  txt "Text: " ++ quoted "Hero: Stop!" ++ nl ++
  txt "text: " ++ quoted "Thief: Never!" ++ nl.

(** ** Texts written as the prompts ask

    The shapes of the texts the two parsers are written for, with what
    makes the delimiters and headings of such a text the ones written. *)

(** [s] starts with a character of class [p]. *)
Definition starts_with (p : ascii -> bool) (s : str) : Prop :=
  match s with
  | c :: _ => p c = true
  | [] => False
  end.

(** A pattern that starts with the marker [#] and takes it nowhere else. *)
Definition hash_led (r : regex) : Prop :=
  exists g r', r = Atom (Char.exactly "#"%char) One g :: r' /\
               Forall (fun a => cls a "#"%char = false) r'.

(** A panel, as its number and its body: the text of the panel, and the
    match and block it is parsed into. *)
Definition panel_text (p : str * str) : str := txt "# Panel " ++ p.1 ++ p.2.

Definition panel_cut (p : str * str) : list str * str :=
  (map (fun c => [c]) (txt "# Panel ") ++ [p.1], p.2).

Definition panel_written (p : str * str) : Prop :=
  p.1 <> [] /\ Forall (fun c => Char.is_digit c = true) p.1 /\
  ~ starts_with Char.is_digit p.2 /\ ~ occurs panel_re p.2.

(** A story section, as the white space after the marker, the heading word
    and the content: its text, and the match and content it is parsed into. *)
Definition section_text (h : str * str * str) : str :=
  "#"%char :: h.1.1 ++ h.1.2 ++ h.2.

Definition section_cut (h : str * str * str) : list str * str :=
  ([["#"%char]; h.1.1; h.1.2], h.2).

Definition section_written (h : str * str * str) : Prop :=
  blank h.1.1 /\ h.1.2 <> [] /\ Forall (fun c => Char.is_word c = true) h.1.2 /\
  ~ starts_with Char.is_word h.2 /\ ~ occurs heading_re h.2.

(** * The rest of the program

    The two prompts, [generate_panels] and [generate_story]. What the
    program does not compute is an argument: the service behind [genai]. *)

(** The template of [generate_panels], up to the field [{art_style}], between it
    and the field [{scenario}], and after that. *)
Definition panel_template_head : str :=
  nl ++
  txt "    You are a professional comic book creator." ++ nl ++
  txt "    You will be given a short scenario, and you must split it into exactly 6 comic panels." ++ nl ++
  txt "    **Art Style:** ".

Definition panel_template_body : str :=
  nl ++
  txt "    For each comic panel, provide:" ++ nl ++
  txt "    1. **Description**: A detailed background and character description (comma-separated, not full sentences)." ++ nl ++
  txt "    2. **Text**: Exact dialogue in quotation marks, or if no dialogue, leave it empty or use `...`." ++ nl ++
  txt "    Ensure all text is clear, meaningful, and in proper English." ++ nl ++
  txt "    Format:" ++ nl ++
  txt "    # Panel 1" ++ nl ++
  txt "    Description: [Background and character details]" ++ nl ++
  txt "    Text: " ++ [Char.dquote] ++ txt "[Character]: [Dialogue]" ++ [Char.dquote] ++ txt " OR " ++ [Char.dquote] ++ txt "..." ++ [Char.dquote] ++ txt " if no dialogue." ++ nl ++
  txt "    # Panel 2" ++ nl ++
  txt "    Description: [Background and character details]" ++ nl ++
  txt "    Text: " ++ [Char.dquote] ++ txt "[Character]: [Dialogue]" ++ [Char.dquote] ++ txt " OR " ++ [Char.dquote] ++ txt "..." ++ [Char.dquote] ++ txt " if no dialogue." ++ nl ++
  txt "    # end" ++ nl ++
  txt "    Short Scenario:" ++ nl ++
  txt "    ".

Definition panel_template_tail : str :=
  nl ++
  txt "    ".

(** [template.format(scenario=scenario, art_style=art_style)]: the template
    has the two fields and no other brace. *)
Definition panel_prompt (scenario art_style : str) : str :=
  panel_template_head ++ art_style ++ panel_template_body ++ scenario ++ panel_template_tail.

(** The template of [generate_story], up to the field [{art_style}], between it
    and the field [{scenario}], and after that. *)
Definition story_template_head : str :=
  nl ++
  txt "    You are a professional storyteller." ++ nl ++
  txt "    Given a short scenario, create a structured story with a title and exactly 4 sections:" ++ nl ++
  txt "    **Title**: A catchy title for the story." ++ nl ++
  txt "    1. **Introduction**: Introduce the main character(s) and setting in 1-2 sentences." ++ nl ++
  txt "    2. **Storyline**: Describe the sequence of events leading to the climax in 2-3 sentences." ++ nl ++
  txt "    3. **Climax**: Highlight the peak action or turning point in 1-2 sentences." ++ nl ++
  txt "    4. **Moral**: Provide a concluding lesson or takeaway in 1 sentence." ++ nl ++
  txt "    **Art Style Context:** ".

Definition story_template_body : str :=
  nl ++
  txt "    Format:" ++ nl ++
  txt "    # Title" ++ nl ++
  txt "    [Title text]" ++ nl ++
  txt "    # Introduction" ++ nl ++
  txt "    [Text]" ++ nl ++
  txt "    # Storyline" ++ nl ++
  txt "    [Text]" ++ nl ++
  txt "    # Climax" ++ nl ++
  txt "    [Text]" ++ nl ++
  txt "    # Moral" ++ nl ++
  txt "    [Text]" ++ nl ++
  txt "    Short Scenario:" ++ nl ++
  txt "    ".

Definition story_template_tail : str :=
  nl ++
  txt "    ".

(** [template.format(scenario=scenario, art_style=art_style)]: the template
    has the two fields and no other brace. *)
Definition story_prompt (scenario art_style : str) : str :=
  story_template_head ++ art_style ++ story_template_body ++ scenario ++ story_template_tail.

(** What the callers of the parsers can raise: an exception of the parsers,
    or another exception, [Exception(msg)] or one of the service, given by
    its message. *)
Inductive raised :=
  | Exn (e : exn)
  | Exception (msg : str).

(** The service: from the configured key, the name of the model and the
    prompt to the text of the response, [None] without a response, or to an
    exception. *)
Abbreviation service := (str -> str -> str -> raised + option str)%type.

(** [not response or not response.text] *)
Definition no_text (response : option str) : bool :=
  match response with
  | Some text => negb (truthy text)
  | None => true
  end.

(** [response.text] *)
Definition response_text (response : option str) : str :=
  match response with
  | Some text => text
  | None => []
  end.

Definition generate_panels (generate_content : service) (api_key scenario art_style : str)
    : raised + list PanelInfo :=
  let formatted_prompt := panel_prompt scenario art_style in
  match generate_content api_key (txt "gemini-1.5-pro") formatted_prompt with
  | inl e => inl e
  | inr response =>
      if no_text response
      then inl (Exception (txt "Error: Failed to generate panel descriptions."))
      else
        match extract_panel_info (strip (response_text response)) with
        | inl e => inl (Exn e)
        | inr panels => inr panels
        end
  end.

Definition generate_story (generate_content : service) (api_key scenario art_style : str)
    : raised + gmap str str :=
  let formatted_prompt := story_prompt scenario art_style in
  match generate_content api_key (txt "gemini-2.5-pro") formatted_prompt with
  | inl e => inl e
  | inr response =>
      if no_text response
      then inl (Exception (txt "Error: Failed to generate story."))
      else
        match extract_story_info (strip (response_text response)) with
        | inl e => inl (Exn e)
        | inr story_info => inr story_info
        end
  end.

(** [p'] is [p] with white space added at its ends. *)
Definition padded (p p' : str) : Prop :=
  exists w1 w2, blank w1 /\ blank w2 /\ p' = w1 ++ p ++ w2.

(** A pattern whose matches end with a character that is not white space. *)
Definition ends_tight (r : regex) : Prop :=
  forall ts, parses r ts -> exists m c, concat ts = m ++ [c] /\ Char.is_space c = false.

(** ** Responses in the format the prompts ask for *)

(** A section of a story: the heading on a line, then the content. *)
Definition story_section_lines (heading : string) (content : str) : str :=
  txt "# " ++ txt heading ++ nl ++ content ++ nl.

(** A story, section by section, as the prompt of [generate_story] lays it
    out. *)
Definition format_story (title introduction storyline climax moral : str) : str :=
  story_section_lines "Title" title ++
  story_section_lines "Introduction" introduction ++
  story_section_lines "Storyline" storyline ++
  story_section_lines "Climax" climax ++
  story_section_lines "Moral" moral.

(** The lines of a panel under its delimiter, as the prompt of
    [generate_panels] lays them out. *)
Definition panel_lines (panel : PanelInfo) : str :=
  nl ++ txt "Description: " ++ Description panel ++ nl ++
  txt "Text: " ++ [Char.dquote] ++ Text panel ++ [Char.dquote] ++ nl.

(** A panel with its number. *)
Definition format_panel (numbered : str * PanelInfo) : str :=
  txt "# Panel " ++ numbered.1 ++ panel_lines numbered.2.

(** The records that can be written so: a description of one line that is
    stripped and not empty, a text that is not empty, and in neither a
    double quote or the marker [#]. *)
Definition writable (panel : PanelInfo) : Prop :=
  Description panel <> [] /\ strip (Description panel) = Description panel /\
  (Char.newline ∉ Description panel) /\ (Char.dquote ∉ Description panel) /\
  ("#"%char ∉ Description panel) /\
  Text panel <> [] /\ (Char.dquote ∉ Text panel) /\ ("#"%char ∉ Text panel).

(** Sample panels, numbered. *)
Definition numbered_samples : list (str * PanelInfo) :=
  [(txt "1", sample_record); (txt "2", sample_record); (txt "3", sample_record);
   (txt "4", sample_record); (txt "5", sample_record); (txt "6", sample_record)].

(** The sample panels, all under the number 1. *)
Definition samples_numbered_one : list (str * PanelInfo) :=
  map (fun np => (txt "1", np.2)) numbered_samples.

(** The bodies of numbered panels. *)
Definition panel_bodies (numbered : list (str * PanelInfo)) : list (str * str) :=
  map (fun np => (np.1, panel_lines np.2)) numbered.

(** Two sections of a story, as written. *)
Definition two_sections : list (str * str * str) :=
  [([Char.space], txt "Title", nl ++ txt "The Brave Cat" ++ nl);
   ([Char.space], txt "Moral", nl ++ txt "Be kind." ++ nl)].

(** * The matcher against the patterns' meaning *)



Section Engine.

Implicit Types (r : regex) (a : atom) (s t rest : str) (ts : list str).

Lemma greedy_none {A} p (k : str -> str -> option A) s :
  forall taken, greedy p k taken s = None ->
  forall t s', s = t ++ s' -> Forall (fun c => p c = true) t -> k (taken ++ t) s' = None.
Proof.
  induction s as [|c s0 IH]; intros taken Hg t s' Hs Ht; simpl in Hg.
  - symmetry in Hs. apply app_eq_nil in Hs as [-> ->]. by rewrite app_nil_r.
  - destruct t as [|c' t'].
    + simpl in Hs. subst s'. rewrite app_nil_r.
      destruct (p c); [destruct (greedy p k (taken ++ [c]) s0)|]; congruence.
    + simpl in Hs. injection Hs as <- ->. apply Forall_cons in Ht as [Hc Ht].
      rewrite Hc in Hg.
      destruct (greedy p k (taken ++ [c]) (t' ++ s')) eqn:Hrec; [congruence|].
      rewrite (cons_middle c taken t'), app_assoc. by eapply IH.
Qed.

Lemma greedy_some {A} p (k : str -> str -> option A) s :
  forall taken x, greedy p k taken s = Some x ->
  exists t s', s = t ++ s' /\ Forall (fun c => p c = true) t /\
    k (taken ++ t) s' = Some x /\
    forall t2 s2, s = t2 ++ s2 -> Forall (fun c => p c = true) t2 ->
      length t < length t2 -> k (taken ++ t2) s2 = None.
Proof.
  induction s as [|c s0 IH]; intros taken x Hg; simpl in Hg.
  - exists [], []. rewrite (app_nil_r taken). split_and!; [done..|].
    intros t2 s2 Hs _ Hlen. symmetry in Hs. apply app_eq_nil in Hs as [-> _].
    simpl in Hlen. lia.
  - destruct (p c) eqn:Hc.
    + destruct (greedy p k (taken ++ [c]) s0) as [y|] eqn:Hrec.
      * injection Hg as ->. apply IH in Hrec as (t & s' & -> & Ht & Hk & Hmax).
        exists (c :: t), s'. rewrite (cons_middle c taken t), app_assoc.
        split_and!; [done|by constructor|done|].
        intros t2 s2 Hs Ht2 Hlen. destruct t2 as [|c2 t2]; [simpl in Hlen; lia|].
        simpl in Hs. injection Hs as <- Hs. apply Forall_cons in Ht2 as [_ Ht2].
        rewrite (cons_middle c taken t2), app_assoc. apply Hmax; auto.
        simpl in Hlen. lia.
      * exists [], (c :: s0). rewrite (app_nil_r taken). split_and!; [done..|].
        intros t2 s2 Hs Ht2 Hlen. destruct t2 as [|c2 t2]; [simpl in Hlen; lia|].
        simpl in Hs. injection Hs as <- Hs. apply Forall_cons in Ht2 as [_ Ht2].
        rewrite (cons_middle c taken t2), app_assoc.
        by eapply greedy_none.
    + exists [], (c :: s0). rewrite (app_nil_r taken). split_and!; [done..|].
      intros t2 s2 Hs Ht2 Hlen. destruct t2 as [|c2 t2]; [simpl in Hlen; lia|].
      simpl in Hs. injection Hs as <- Hs. apply Forall_cons in Ht2 as [Hc2 _].
      congruence.
Qed.

Lemma add_chunk_some t m ts rest :
  add_chunk t m = Some (ts, rest) <-> exists ts0, m = Some (ts0, rest) /\ ts = t :: ts0.
Proof.
  destruct m as [[ts0 rest0]|]; simpl; split.
  - intros [= <- <-]. eauto.
  - intros (ts1 & [= -> ->] & ->). done.
  - done.
  - by intros (? & ? & _).
Qed.

Lemma add_chunk_none t m : add_chunk t m = None <-> m = None.
Proof. destruct m as [[? ?]|]; simpl; split; congruence. Qed.

(** What the matcher finds is a match. *)
Lemma match_here_sound r :
  forall s ts rest, match_here r s = Some (ts, rest) ->
  parses r ts /\ s = concat ts ++ rest.
Proof.
  induction r as [|a r' IH]; intros s ts rest Hm; simpl in Hm.
  - injection Hm as <- <-. split; [constructor | done].
  - destruct (rep a) eqn:Hrep.
    + destruct s as [|c s']; [done|]. destruct (cls a c) eqn:Hc; [|done].
      apply add_chunk_some in Hm as (ts0 & Hm & ->). apply IH in Hm as [Hp ->].
      split; [|done]. constructor; [|done]. split; [by constructor|]. by rewrite Hrep.
    + apply greedy_some in Hm as (t & s' & -> & Ht & Hm & _). simpl in Hm.
      apply add_chunk_some in Hm as (ts0 & Hm & ->). apply IH in Hm as [Hp ->].
      split; [|simpl; by rewrite <- app_assoc]. constructor; [|done]. split; [done|].
      by rewrite Hrep.
    + destruct s as [|c s']; [done|]. destruct (cls a c) eqn:Hc; [|done].
      apply greedy_some in Hm as (t & s0 & -> & Ht & Hm & _). simpl in Hm.
      apply add_chunk_some in Hm as (ts0 & Hm & ->). apply IH in Hm as [Hp ->].
      split; [|simpl; by rewrite <- app_assoc]. constructor; [|done].
      split; [by constructor|]. by rewrite Hrep.
Qed.

(** Where the matcher finds nothing, no match starts. *)
Lemma match_here_complete r :
  forall s, match_here r s = None ->
  forall ts rest, parses r ts -> s <> concat ts ++ rest.
Proof.
  induction r as [|a r' IH]; intros s Hm ts rest Hp Hs; simpl in Hm; [done|].
  inversion Hp as [|a' t r0 ts0 [Ht Hrep] Hp0]; subst. simpl in Hm.
  rewrite <- app_assoc in Hm.
  destruct (rep a).
  - destruct t as [|c [|? ?]]; try done. simpl in Hm.
    apply Forall_cons in Ht as [Hc _]. rewrite Hc in Hm. apply add_chunk_none in Hm.
    by eapply IH.
  - eapply greedy_none in Hm; [|done..]. simpl in Hm.
    apply add_chunk_none in Hm. by eapply IH.
  - destruct t as [|c t]; [done|]. simpl in Hm.
    apply Forall_cons in Ht as [Hc Ht]. rewrite Hc in Hm.
    eapply greedy_none in Hm; [|done..]. simpl in Hm.
    apply add_chunk_none in Hm. by eapply IH.
Qed.

(** The matcher takes the match a backtracking search tries first. *)
Lemma match_here_prefers r :
  forall s ts rest, match_here r s = Some (ts, rest) ->
  forall ts' rest', parses r ts' -> s = concat ts' ++ rest' -> prefers ts ts'.
Proof.
  induction r as [|a r' IH]; intros s ts rest Hm ts' rest' Hp Hs; simpl in Hm.
  - injection Hm as <- <-. inversion Hp. constructor.
  - inversion Hp as [|a' t' r0 ts0' [Ht' Hrep'] Hp0]; subst. simpl in Hm.
    rewrite <- app_assoc in Hm.
    destruct (rep a).
    + destruct t' as [|c [|? ?]]; try done. simpl in Hm.
      apply Forall_cons in Ht' as [Hc _]. rewrite Hc in Hm.
      apply add_chunk_some in Hm as (ts0 & Hm & ->).
      apply prefers_same. by eapply IH.
    + apply greedy_some in Hm as (t & s' & Hs & Ht & Hm & Hmax). simpl in Hm.
      apply add_chunk_some in Hm as (ts0 & Hm & ->).
      destruct (Nat.lt_trichotomy (length t') (length t)) as [Hlt|[Heq|Hgt]].
      * by apply prefers_longer.
      * apply app_inj_1 in Hs as [-> <-]; [|done]. apply prefers_same. by eapply IH.
      * specialize (Hmax t' _ eq_refl Ht' Hgt). simpl in Hmax.
        apply add_chunk_none in Hmax. by eapply match_here_complete in Hmax.
    + destruct t' as [|c t']; [done|]. simpl in Hm.
      apply Forall_cons in Ht' as [Hc Ht']. rewrite Hc in Hm.
      apply greedy_some in Hm as (t & s' & Hs & Ht & Hm & Hmax). simpl in Hm.
      apply add_chunk_some in Hm as (ts0 & Hm & ->).
      destruct (Nat.lt_trichotomy (length t') (length t)) as [Hlt|[Heq|Hgt]].
      * apply prefers_longer. simpl. lia.
      * apply app_inj_1 in Hs as [-> <-]; [|done]. apply prefers_same. by eapply IH.
      * specialize (Hmax t' _ eq_refl Ht' Hgt). simpl in Hmax.
        apply add_chunk_none in Hmax. by eapply match_here_complete in Hmax.
Qed.

Lemma prefers_antisym ts ts' : prefers ts ts' -> prefers ts' ts -> ts = ts'.
Proof.
  induction 1 as [|t ts t' ts' Hlt|t ts ts' _ IH]; inversion 1; subst;
    try done; try lia.
  f_equal. by apply IH.
Qed.

Lemma first_match_here r s ts rest :
  match_here r s = Some (ts, rest) -> first_match r s [] ts rest.
Proof.
  intros Hm. destruct (match_here_sound _ _ _ _ Hm) as [Hp ->].
  split_and!; [done..|]. intros pre' ts' rest' Heq Hp'. split; [simpl; lia|].
  intros Hlen. destruct pre'; [|done]. by eapply match_here_prefers.
Qed.

(** [re.search] reports the first match ... *)
Lemma re_search_first r s :
  forall pre ts rest, re_search r s = Some (pre, ts, rest) -> first_match r s pre ts rest.
Proof.
  induction s as [|c s' IH]; intros pre ts rest Hs; simpl in Hs.
  - destruct (match_here r []) as [[ts0 rest0]|] eqn:Hm; [|done].
    injection Hs as <- <- <-. by apply first_match_here.
  - destruct (match_here r (c :: s')) as [[ts0 rest0]|] eqn:Hm.
    + injection Hs as <- <- <-. by apply first_match_here.
    + destruct (re_search r s') as [[[pre0 ts0] rest0]|] eqn:Hrec; [|done].
      injection Hs as <- <- <-. destruct (IH _ _ _ eq_refl) as (-> & Hp & Hleft).
      split_and!; [done..|]. intros pre' ts' rest' Heq Hp'.
      destruct pre' as [|c' pre'].
      * simpl in Heq. by eapply match_here_complete in Hm.
      * simpl in Heq. injection Heq as <- Heq.
        destruct (Hleft _ _ _ Heq Hp') as [Hle Hpr]. simpl.
        split; [lia|]. intros Hlen. apply Hpr. lia.
Qed.

(** ... and nothing only where there is no match. *)
Lemma re_search_none r s : re_search r s = None -> ~ occurs r s.
Proof.
  induction s as [|c s' IH]; simpl; intros Hs (pre & ts & rest & Heq & Hp).
  - destruct (match_here r []) as [[ts0 rest0]|] eqn:Hm; [done|].
    symmetry in Heq. apply app_eq_nil in Heq as [-> Heq].
    by eapply match_here_complete in Hm.
  - destruct (match_here r (c :: s')) as [[ts0 rest0]|] eqn:Hm; [done|].
    destruct pre as [|c' pre].
    + by eapply match_here_complete in Hm.
    + simpl in Heq. injection Heq as <- Heq. apply IH.
      * by destruct (re_search r s') as [[[? ?] ?]|].
      * by exists pre, ts, rest.
Qed.

Lemma first_match_search r pre :
  forall s ts rest, first_match r s pre ts rest -> re_search r s = Some (pre, ts, rest).
Proof.
  induction pre as [|c pre IH]; intros s ts rest (-> & Hp & Hleft).
  - assert (Hhere : match_here r (concat ts ++ rest) = Some (ts, rest)).
    { destruct (match_here r (concat ts ++ rest)) as [[ts1 rest1]|] eqn:Hm.
      - pose proof (match_here_sound _ _ _ _ Hm) as [Hp1 Heq].
        assert (ts1 = ts) as ->.
        { apply prefers_antisym; [by eapply match_here_prefers|].
          by apply (Hleft [] ts1 rest1). }
        by apply app_inv_head in Heq as ->.
      - by eapply match_here_complete in Hm. }
    simpl. destruct (concat ts ++ rest); simpl; by rewrite Hhere.
  - simpl. destruct (match_here r (c :: pre ++ concat ts ++ rest)) as [[ts1 rest1]|] eqn:Hm.
    + apply match_here_sound in Hm as [Hp1 Heq].
      destruct (Hleft [] ts1 rest1 Heq Hp1) as [Hle _]. simpl in Hle. lia.
    + rewrite (IH (pre ++ concat ts ++ rest) ts rest); [done|].
      split_and!; [done..|]. intros pre' ts' rest' Heq Hp'.
      destruct (Hleft (c :: pre') ts' rest') as [Hle Hpr]; [simpl; by rewrite Heq|done|].
      simpl in Hle, Hpr. split; [lia|]. intros Hlen. apply Hpr. lia.
Qed.

Lemma not_occurs_search r s : ~ occurs r s -> re_search r s = None.
Proof.
  intros Hno. destruct (re_search r s) as [[[pre ts] rest]|] eqn:Hs; [|done].
  apply re_search_first in Hs as (-> & Hp & _). destruct Hno. by exists pre, ts, rest.
Qed.

(** The first match is unique. *)
Lemma first_match_unique r s pre ts rest pre' ts' rest' :
  first_match r s pre ts rest -> first_match r s pre' ts' rest' ->
  pre' = pre /\ ts' = ts /\ rest' = rest.
Proof.
  intros H1 H2. apply first_match_search in H1, H2. rewrite H1 in H2.
  by injection H2 as <- <- <-.
Qed.

(** If a match exists, there is a first one. *)
Lemma occurs_first_match r s :
  occurs r s -> exists pre ts rest, first_match r s pre ts rest.
Proof.
  intros Hocc. destruct (re_search r s) as [[[pre ts] rest]|] eqn:Hs.
  - exists pre, ts, rest. by apply re_search_first.
  - by apply re_search_none in Hs.
Qed.

Lemma split_by_text r s pre blocks :
  split_by r s pre blocks ->
  s = pre ++ concat (map (fun b => concat b.1 ++ b.2) blocks).
Proof.
  induction 1 as [s _|s pre ts rest piece blocks (-> & _ & _) _ IH]; simpl.
  - by rewrite app_nil_r.
  - by rewrite IH, <- !app_assoc.
Qed.

(** A text is cut in one way only. *)
Lemma split_by_unique r s pre blocks pre' blocks' :
  split_by r s pre blocks -> split_by r s pre' blocks' -> pre' = pre /\ blocks' = blocks.
Proof.
  intros H. revert pre' blocks'.
  induction H as [s Hno|s pre ts rest piece blocks Hfirst _ IH];
    intros pre' blocks'; inversion 1 as [? Hno'|? ? ts' rest' piece' blocks0 Hfirst' Hrest'];
    subst.
  - done.
  - destruct Hno. destruct Hfirst' as (-> & Hp & _). by exists pre', ts', rest'.
  - destruct Hno'. destruct Hfirst as (-> & Hp & _). by exists pre, ts, rest.
  - destruct (first_match_unique _ _ _ _ _ _ _ _ Hfirst Hfirst') as (-> & -> & ->).
    by destruct (IH _ _ Hrest') as [-> ->].
Qed.

Lemma split_by_parses r s pre blocks :
  split_by r s pre blocks -> Forall (fun b => parses r b.1) blocks.
Proof.
  induction 1 as [|s pre ts rest piece blocks (_ & Hp & _) _ IH]; by constructor.
Qed.

Lemma parses_nonempty r ts : productive r -> parses r ts -> concat ts <> [].
Proof.
  intros Hr Hp. induction Hp as [|a t r' ts' [Ht Hrep] Hp IH]; [by inversion Hr|].
  simpl. intros [Ht0 Hts0]%app_eq_nil. apply Exists_cons in Hr as [Ha|Hr'].
  - subst t. by destruct (rep a).
  - by apply IH.
Qed.

End Engine.

(** ** The scans, for a pattern that takes at least one character *)

Section Scan.

Variable r : regex.
Hypothesis productive_r : productive r.

Implicit Types (s t pre rest : str) (ts : list str).

Lemma re_search_shrinks s pre ts rest :
  re_search r s = Some (pre, ts, rest) -> length rest < length s.
Proof.
  intros (-> & Hp & _)%re_search_first. rewrite !length_app.
  pose proof (parses_nonempty _ _ productive_r Hp). destruct (concat ts); [done|simpl; lia].
Qed.

Lemma split_loop_enough :
  forall n m s, length s <= n -> length s <= m -> split_loop n r s = split_loop m r s.
Proof.
  induction n as [|n IH]; intros [|m] s Hn Hm; simpl; try done.
  - destruct (re_search r s) as [[[pre ts] rest]|] eqn:Hs; [|done].
    apply re_search_shrinks in Hs. lia.
  - destruct (re_search r s) as [[[pre ts] rest]|] eqn:Hs; [|done].
    apply re_search_shrinks in Hs. lia.
  - destruct (re_search r s) as [[[pre ts] rest]|] eqn:Hs; [|done].
    apply re_search_shrinks in Hs. do 2 f_equal. apply IH; lia.
Qed.

(** [re.split]: split at the first match and go on after it. *)
Lemma re_split_unfold s :
  re_split r s =
    match re_search r s with
    | None => [s]
    | Some (pre, ts, rest) => pre :: groups r ts ++ re_split r rest
    end.
Proof.
  unfold re_split.
  rewrite (split_loop_enough (length s) (S (length s))) by lia. simpl.
  destruct (re_search r s) as [[[pre ts] rest]|] eqn:Hs; [|done].
  apply re_search_shrinks in Hs. do 2 f_equal.
  apply split_loop_enough; lia.
Qed.

Lemma findall_loop_enough :
  forall n m s, length s <= n -> length s <= m -> findall_loop n r s = findall_loop m r s.
Proof.
  induction n as [|n IH]; intros [|m] s Hn Hm; simpl; try done.
  - destruct (re_search r s) as [[[pre ts] rest]|] eqn:Hs; [|done].
    apply re_search_shrinks in Hs. lia.
  - destruct (re_search r s) as [[[pre ts] rest]|] eqn:Hs; [|done].
    apply re_search_shrinks in Hs. lia.
  - destruct (re_search r s) as [[[pre ts] rest]|] eqn:Hs; [|done].
    apply re_search_shrinks in Hs. f_equal. apply IH; lia.
Qed.

(** [re.findall]: the first match, then the matches after it. *)
Lemma re_findall_unfold s :
  re_findall r s =
    match re_search r s with
    | None => []
    | Some (_, ts, rest) => groups r ts ++ re_findall r rest
    end.
Proof.
  unfold re_findall.
  rewrite (findall_loop_enough (length s) (S (length s))) by lia. simpl.
  destruct (re_search r s) as [[[pre ts] rest]|] eqn:Hs; [|done].
  apply re_search_shrinks in Hs. f_equal.
  apply findall_loop_enough; lia.
Qed.

(** [re.split] gives the parts of the cut, with the groups of each match. *)
Lemma re_split_by s pre blocks :
  split_by r s pre blocks ->
  re_split r s = pre :: flat_map (fun b => groups r b.1 ++ [b.2]) blocks.
Proof.
  induction 1 as [s Hno|s pre ts rest piece blocks Hfirst _ IH];
    rewrite re_split_unfold.
  - by rewrite not_occurs_search.
  - rewrite (first_match_search _ _ _ _ _ Hfirst), IH. simpl.
    by rewrite <- app_assoc.
Qed.

(** [re.findall] gives the groups of the matches of the cut. *)
Lemma re_findall_by s pre blocks :
  split_by r s pre blocks ->
  re_findall r s = flat_map (fun b => groups r b.1) blocks.
Proof.
  induction 1 as [s Hno|s pre ts rest piece blocks Hfirst _ IH];
    rewrite re_findall_unfold.
  - by rewrite not_occurs_search.
  - by rewrite (first_match_search _ _ _ _ _ Hfirst), IH.
Qed.

Lemma scan_loop_split_by :
  forall n s, length s <= n -> split_by r s (scan_loop n r s).1 (scan_loop n r s).2.
Proof.
  induction n as [|n IH]; intros s Hn; simpl.
  - apply split_by_end, re_search_none.
    destruct (re_search r s) as [[[pre ts] rest]|] eqn:Hs; [|done].
    apply re_search_shrinks in Hs. lia.
  - destruct (re_search r s) as [[[pre ts] rest]|] eqn:Hs; simpl.
    + eapply split_by_match; [by apply re_search_first|].
      apply IH. apply re_search_shrinks in Hs. lia.
    + by apply split_by_end, re_search_none.
Qed.

(** Every text is cut, as [scan] computes. *)
Lemma scan_split_by s : split_by r s (scan r s).1 (scan r s).2.
Proof. by apply scan_loop_split_by. Qed.

End Scan.



(** * The patterns of the program *)

Section Patterns.

Implicit Types (r : regex) (s t rest : str) (ts : list str) (c x : ascii).

Lemma code_inj c x : Char.code c = Char.code x -> c = x.
Proof.
  unfold Char.code. intros H. apply (f_equal ascii_of_nat) in H.
  by rewrite !ascii_nat_embedding in H.
Qed.

Lemma exactly_eq x c : Char.exactly x c = true -> c = x.
Proof. unfold Char.exactly. intros H%Nat.eqb_eq. by apply code_inj. Qed.

Lemma ignoring_case_eq x c : Char.ignoring_case x c = true -> Char.lower c = Char.lower x.
Proof. unfold Char.ignoring_case. intros H%Nat.eqb_eq. by apply code_inj. Qed.

Lemma fits_one a t : rep a = One -> fits a t -> exists c, t = [c] /\ cls a c = true.
Proof.
  intros Hrep [Ht Hlen]. rewrite Hrep in Hlen.
  destruct t as [|c [|? ?]]; try done. exists c. by apply Forall_cons in Ht as [? _].
Qed.

Lemma concat_singletons s : concat (map (fun c => [c]) s) = s.
Proof. induction s; simpl; congruence. Qed.

(** A match of a literal is the literal. *)
Lemma parses_lit xs r ts :
  parses (map (fun x => Atom (Char.exactly x) One false) xs ++ r) ts ->
  exists ts', ts = map (fun c => [c]) xs ++ ts' /\ parses r ts'.
Proof.
  revert ts. induction xs as [|x xs IH]; intros ts Hp; simpl in *; [by exists ts|].
  inversion Hp as [|? t ? ? Hfit Hp0]; subst.
  apply fits_one in Hfit as (c & -> & ->%exactly_eq); [|done].
  apply IH in Hp0 as (ts' & -> & Hp'). by exists ts'.
Qed.

(** A match of a literal under [re.IGNORECASE] is the literal up to the case
    of its letters. *)
Lemma parses_lit_i xs r ts :
  parses (map (fun x => Atom (Char.ignoring_case x) One false) xs ++ r) ts ->
  exists label ts',
    ts = map (fun c => [c]) label ++ ts' /\ lower label = lower xs /\ parses r ts'.
Proof.
  revert ts. induction xs as [|x xs IH]; intros ts Hp; simpl in *; [by exists [], ts|].
  inversion Hp as [|? t ? ? Hfit Hp0]; subst.
  apply fits_one in Hfit as (c & -> & Hc%ignoring_case_eq); [|done].
  apply IH in Hp0 as (label & ts' & -> & Hl & Hp'). exists (c :: label), ts'.
  split_and!; [done| |done]. unfold lower in *. simpl. by rewrite Hc, Hl.
Qed.

Lemma groups_lit (f : ascii -> ascii -> bool) xs r label ts :
  length label = length xs ->
  groups (map (fun x => Atom (f x) One false) xs ++ r) (map (fun c => [c]) label ++ ts)
  = groups r ts.
Proof.
  revert label. induction xs as [|x xs IH]; intros [|c label] Hlen; simpl in *; try done.
  apply IH. lia.
Qed.

Lemma lower_length s s' : lower s = lower s' -> length s = length s'.
Proof. unfold lower. intros H%(f_equal length). by rewrite !length_map in H. Qed.

Lemma panel_re_productive : productive panel_re.
Proof. by apply Exists_cons_hd. Qed.

Lemma description_re_productive : productive description_re.
Proof. by apply Exists_cons_hd. Qed.

Lemma text_re_productive : productive text_re.
Proof. by apply Exists_cons_hd. Qed.

Lemma heading_re_productive : productive heading_re.
Proof. by apply Exists_cons_hd. Qed.

(** A delimiter is [# Panel ] and one or more digits; it has no group. *)
Lemma parses_panel_re ts :
  parses panel_re ts ->
  exists ds, ts = map (fun c => [c]) (txt "# Panel ") ++ [ds] /\
    ds <> [] /\ Forall (fun c => Char.is_digit c = true) ds.
Proof.
  intros (ts' & -> & Hp)%parses_lit.
  inversion Hp as [|? ds ? ? [Hds Hne] Hnil]; subst. inversion Hnil; subst.
  by exists ds.
Qed.

Lemma groups_panel_re ts : parses panel_re ts -> groups panel_re ts = [].
Proof. by intros (ds & -> & _)%parses_panel_re. Qed.

(** A match of the description pattern, and its group. *)
Lemma parses_description_re ts :
  parses description_re ts ->
  exists label ws cap,
    ts = map (fun c => [c]) label ++ [ws; cap] /\
    lower label = txt "description:" /\
    Forall (fun c => Char.is_space c = true) ws /\
    cap <> [] /\ Forall (fun c => Char.not_newline c = true) cap /\
    group description_re ts 1 = cap.
Proof.
  intros (label & ts' & -> & Hl & Hp)%parses_lit_i.
  inversion Hp as [|? ws ? ? [Hws _] Hp1]; subst.
  inversion Hp1 as [|? cap ? ? [Hcap Hne] Hnil]; subst. inversion Hnil; subst.
  exists label, ws, cap. split_and!; try done.
  unfold group, description_re, lit_i. rewrite groups_lit; [done|].
  by apply lower_length.
Qed.

(** A quoted dialogue, and its group. *)
Lemma parses_text_re ts :
  parses text_re ts ->
  exists label ws cap,
    ts = map (fun c => [c]) label ++ [ws; [Char.dquote]; cap; [Char.dquote]] /\
    lower label = txt "text:" /\
    Forall (fun c => Char.is_space c = true) ws /\
    cap <> [] /\ Forall (fun c => Char.not_dquote c = true) cap /\
    groups text_re ts = [cap].
Proof.
  intros (label & ts' & -> & Hl & Hp)%parses_lit_i.
  inversion Hp as [|? ws ? ? [Hws _] Hp1]; subst.
  inversion Hp1 as [|? q1 ? ? Hq1 Hp2]; subst.
  apply fits_one in Hq1 as (c1 & -> & ->%exactly_eq); [|done].
  inversion Hp2 as [|? cap ? ? [Hcap Hne] Hp3]; subst.
  inversion Hp3 as [|? q2 ? ? Hq2 Hnil]; subst. inversion Hnil; subst.
  apply fits_one in Hq2 as (c2 & -> & ->%exactly_eq); [|done].
  exists label, ws, cap. split_and!; try done.
  unfold text_re, lit_i. rewrite groups_lit; [done|]. by apply lower_length.
Qed.

(** A heading: the marker, white space, and the heading word, its group. *)
Lemma parses_heading_re ts :
  parses heading_re ts ->
  exists ws name,
    ts = [["#"%char]; ws; name] /\
    Forall (fun c => Char.is_space c = true) ws /\
    name <> [] /\ Forall (fun c => Char.is_word c = true) name /\
    groups heading_re ts = [name].
Proof.
  intros Hp. inversion Hp as [|? h ? ? Hh Hp1]; subst.
  apply fits_one in Hh as (c & -> & ->%exactly_eq); [|done].
  inversion Hp1 as [|? ws ? ? [Hws _] Hp2]; subst.
  inversion Hp2 as [|? name ? ? [Hname Hne] Hnil]; subst. inversion Hnil; subst.
  by exists ws, name.
Qed.

End Patterns.

(** * Texts written as the prompts ask *)

Section Written.

Implicit Types (r : regex) (s t pre rest : str) (ts : list str).

Lemma greedy_run {A} p (k : str -> str -> option A) t s x :
  Forall (fun c => p c = true) t -> ~ starts_with p s ->
  forall taken, k (taken ++ t) s = Some x -> greedy p k taken (t ++ s) = Some x.
Proof.
  intros Ht Hs. induction Ht as [|c t Hc _ IH]; intros taken Hk; simpl.
  - rewrite app_nil_r in Hk. destruct s as [|c s]; [done|]. simpl in *.
    by destruct (p c).
  - rewrite Hc, (IH (taken ++ [c])); [done|]. by rewrite <- app_assoc.
Qed.

Lemma match_here_lit xs r s :
  match_here (map (fun x => Atom (Char.exactly x) One false) xs ++ r) (xs ++ s)
  = foldr add_chunk (match_here r s) (map (fun c => [c]) xs).
Proof.
  induction xs as [|x xs IH]; [done|]. cbn [map app match_here rep cls foldr].
  unfold Char.exactly at 1. by rewrite Nat.eqb_refl, IH.
Qed.

Lemma foldr_add_chunk (l : list str) ts rest :
  foldr add_chunk (Some (ts, rest)) l = Some (l ++ ts, rest).
Proof. induction l as [|t l IH]; simpl; [done|]. by rewrite IH. Qed.

(** A delimiter is matched with all its digits. *)
Lemma match_here_panel ds rest :
  ds <> [] -> Forall (fun c => Char.is_digit c = true) ds ->
  ~ starts_with Char.is_digit rest ->
  match_here panel_re (txt "# Panel " ++ ds ++ rest)
  = Some (map (fun c => [c]) (txt "# Panel ") ++ [ds], rest).
Proof.
  intros Hne Hds Hrest. unfold panel_re, lit. rewrite match_here_lit.
  destruct ds as [|d ds]; [done|]. apply Forall_cons in Hds as [Hd Hds].
  cbn [app match_here rep cls]. rewrite Hd.
  by rewrite (greedy_run _ _ ds rest ([d :: ds], rest)), foldr_add_chunk.
Qed.

Lemma space_not_word c : Char.is_word c = true -> Char.is_space c = false.
Proof. destruct c as [[] [] [] [] [] [] [] []]; vm_compute; congruence. Qed.

(** A heading is matched with all its white space and its whole word. *)
Lemma match_here_heading ws name rest :
  blank ws -> name <> [] -> Forall (fun c => Char.is_word c = true) name ->
  ~ starts_with Char.is_word rest ->
  match_here heading_re ("#"%char :: ws ++ name ++ rest)
  = Some ([["#"%char]; ws; name], rest).
Proof.
  intros Hws Hne Hname Hrest. destruct name as [|n name]; [done|].
  apply Forall_cons in Hname as [Hn Hname].
  cbn [heading_re match_here rep cls]. unfold Char.exactly at 1. rewrite Nat.eqb_refl.
  rewrite (greedy_run _ _ ws ((n :: name) ++ rest) ([ws; n :: name], rest)); [done..| |].
  - simpl. by rewrite (space_not_word n).
  - cbn [app match_here rep cls]. rewrite Hn.
    by rewrite (greedy_run _ _ name rest ([n :: name], rest)).
Qed.

(** A match of a pattern led by the marker is the marker and text without
    it. *)
Lemma parses_hash_led r ts :
  hash_led r -> parses r ts -> exists m, concat ts = "#"%char :: m /\ "#"%char ∉ m.
Proof.
  intros (g & r' & -> & Hfree) Hp.
  inversion Hp as [|? t ? ts' Hfit Hp']; subst.
  apply fits_one in Hfit as (c & -> & ->%exactly_eq); [|done].
  exists (concat ts'). split; [done|]. clear Hp.
  induction Hp' as [|a t r' ts' [Ht _] _ IH]; simpl; [by apply not_elem_of_nil|].
  apply Forall_cons in Hfree as [Ha Hfree]. rewrite elem_of_app. intros [Hin|Hin].
  - eapply Forall_forall in Ht; [|exact Hin]. congruence.
  - by apply IH.
Qed.

(** No match of such a pattern starts in a text without a match that is
    followed by the marker or by nothing. *)
Lemma no_match_before r pre s :
  hash_led r -> ~ occurs r pre -> ~ starts_with (fun c => negb (Char.exactly "#"%char c)) s ->
  forall a u, pre = a ++ u -> u <> [] -> match_here r (u ++ s) = None.
Proof.
  intros Hr Hpre Hs a u -> Hu.
  destruct (match_here r (u ++ s)) as [[ts rest]|] eqn:Hm; [|done].
  apply match_here_sound in Hm as [Hp Heq].
  destruct (parses_hash_led _ _ Hr Hp) as (m & Hm & Hfree).
  apply app_eq_app in Heq as [l [[-> ->]|[Hts ->]]].
  - destruct Hpre. by exists a, ts, l.
  - destruct l as [|c l].
    + rewrite app_nil_r in Hts. destruct Hpre. exists a, ts, []. by rewrite Hts, app_nil_r.
    + simpl in Hs. destruct (Char.exactly "#"%char c) eqn:Hc; [|done].
      apply exactly_eq in Hc as ->. destruct u as [|c0 u]; [done|].
      rewrite Hts in Hm. injection Hm as _ <-. destruct Hfree.
      apply elem_of_app. right. left.
Qed.

Lemma re_search_skip r pre s ts rest :
  (forall a u, pre = a ++ u -> u <> [] -> match_here r (u ++ s) = None) ->
  match_here r s = Some (ts, rest) ->
  re_search r (pre ++ s) = Some (pre, ts, rest).
Proof.
  intros Hskip Hm. induction pre as [|c pre IH]; simpl.
  - destruct s; simpl; by rewrite Hm.
  - assert (Hhere := Hskip [] (c :: pre) eq_refl ltac:(done)). simpl in Hhere.
    rewrite Hhere, IH; [done|].
    intros a u -> Hu. by apply (Hskip (c :: a) u).
Qed.

Lemma panel_re_hash_led : hash_led panel_re.
Proof. eexists _, _. split; [reflexivity|]. repeat constructor. Qed.

Lemma heading_re_hash_led : hash_led heading_re.
Proof. eexists _, _. split; [reflexivity|]. repeat constructor. Qed.

(** A text written as panels is cut into the panels written. *)
Lemma panels_written pre (ps : list (str * str)) :
  ~ occurs panel_re pre -> Forall panel_written ps ->
  split_by panel_re (pre ++ concat (map panel_text ps)) pre (map panel_cut ps).
Proof.
  intros Hpre Hps. revert pre Hpre.
  induction Hps as [|[ds body] ps (Hne & Hds & Hbody & Hfree) Hps IH]; intros pre Hpre.
  - simpl. rewrite app_nil_r. by apply split_by_end.
  - cbn [map concat panel_cut fst snd] in *. unfold panel_text at 1. cbn [fst snd].
    rewrite <- !app_assoc.
    assert (Hnext : ~ starts_with Char.is_digit (body ++ concat (map panel_text ps))).
    { destruct body; [|done]. by destruct ps. }
    eapply split_by_match; [|by apply IH].
    apply re_search_first, re_search_skip; [|by apply match_here_panel].
    by apply (no_match_before _ _ _ panel_re_hash_led Hpre).
Qed.

(** A text written as story sections is cut into the sections written. *)
Lemma sections_written pre (hs : list (str * str * str)) :
  ~ occurs heading_re pre -> Forall section_written hs ->
  split_by heading_re (pre ++ concat (map section_text hs)) pre (map section_cut hs).
Proof.
  intros Hpre Hhs. revert pre Hpre.
  induction Hhs as [|[[ws name] content] hs (Hws & Hne & Hname & Hcontent & Hfree) Hhs IH];
    intros pre Hpre.
  - simpl. rewrite app_nil_r. by apply split_by_end.
  - cbn [map concat section_cut fst snd] in *. unfold section_text at 1. cbn [fst snd].
    assert (Hnext : ~ starts_with Char.is_word (content ++ concat (map section_text hs))).
    { destruct content; [|done]. by destruct hs. }
    replace (("#"%char :: ws ++ name ++ content) ++ concat (map section_text hs))
      with ("#"%char :: ws ++ name ++ content ++ concat (map section_text hs))
      by (simpl; by rewrite <- !app_assoc).
    eapply split_by_match; [|by apply IH].
    apply re_search_first, re_search_skip; [|by apply match_here_heading].
    by apply (no_match_before _ _ _ heading_re_hash_led Hpre).
Qed.

End Written.

(** * [extract_panel_info] *)

Section Panels.

Implicit Types (text block pre : str) (blocks : list (list str * str)).

Example extract_panel_info_sample :
  extract_panel_info sample_text = inr (replicate 6 sample_record).
Proof. vm_compute. reflexivity. Qed.

Lemma lstrip_blank s : blank (lstrip s) <-> blank s.
Proof.
  unfold blank. induction s as [|c s IH]; simpl; [done|].
  destruct (Char.is_space c) eqn:Hc; [|done].
  rewrite IH, Forall_cons. tauto.
Qed.

Lemma lstrip_nil s : lstrip s = [] <-> blank s.
Proof.
  unfold blank. induction s as [|c s IH]; simpl; [done|].
  destruct (Char.is_space c) eqn:Hc; rewrite Forall_cons.
  - rewrite IH. tauto.
  - split; [done|]. intros [? _]. congruence.
Qed.

Lemma strip_nil s : strip s = [] <-> blank s.
Proof.
  unfold strip, rstrip. rewrite <- lstrip_blank.
  split.
  - intros H%(f_equal (@rev ascii)). rewrite rev_involutive in H. simpl in H.
    apply lstrip_nil in H. unfold blank in *. apply Forall_rev in H.
    by rewrite rev_involutive in H.
  - intros H. unfold blank in H. apply Forall_rev, lstrip_nil in H. by rewrite H.
Qed.

Lemma truthy_strip_false s : blank s -> truthy (strip s) = false.
Proof. intros H%strip_nil. by rewrite H. Qed.

Lemma truthy_strip_true s : ~ blank s -> truthy (strip s) = true.
Proof.
  intros H. destruct (strip s) eqn:Hs; [|done]. by apply strip_nil in Hs.
Qed.

Lemma space_lower c : Char.is_space c = true -> Char.lower c = c.
Proof. destruct c as [[] [] [] [] [] [] [] []]; vm_compute; congruence. Qed.

(** The loop keeps one record for each block that is not blank, in the order
    of the blocks. *)
Lemma panel_loop_flat_map (bs : list str) :
  panel_loop bs =
  flat_map (fun b => if truthy (strip b) then [panel_of_block b] else []) bs.
Proof.
  unfold panel_loop.
  enough (forall acc,
    fold_left (fun l b => if truthy (strip b) then l ++ [panel_of_block b] else l) bs acc
    = acc ++ flat_map (fun b => if truthy (strip b) then [panel_of_block b] else []) bs)
    as H by apply (H []).
  induction bs as [|b bs IH]; intros acc; simpl; [by rewrite app_nil_r|].
  rewrite IH. destruct (truthy (strip b)); [by rewrite <- app_assoc|done].
Qed.

Lemma panel_loop_cons_blank b (bs : list str) :
  blank b -> panel_loop (b :: bs) = panel_loop bs.
Proof. intros H. rewrite !panel_loop_flat_map. simpl. by rewrite truthy_strip_false. Qed.

Lemma panel_loop_cons b (bs : list str) :
  ~ blank b -> panel_loop (b :: bs) = panel_of_block b :: panel_loop bs.
Proof. intros H. rewrite !panel_loop_flat_map. simpl. by rewrite truthy_strip_true. Qed.

Lemma panel_loop_all (bs : list str) :
  Forall (fun b => ~ blank b) bs -> panel_loop bs = map panel_of_block bs.
Proof.
  induction 1 as [|b bs Hb _ IH]; [done|]. by rewrite panel_loop_cons, IH.
Qed.

(** [re.split] on the delimiter: the text before the first delimiter, then
    the text after each delimiter. *)
Lemma re_split_panels text pre blocks :
  split_by panel_re text pre blocks -> re_split panel_re text = pre :: map snd blocks.
Proof.
  intros H. rewrite (re_split_by _ panel_re_productive _ _ _ H). f_equal.
  apply split_by_parses in H. induction H as [|[ts b] blocks Hp _ IH]; [done|].
  cbn [flat_map map fst snd] in *. by rewrite groups_panel_re, IH.
Qed.

(** A block with a [Description:] line is not blank. *)
Lemma occurs_description_not_blank block : occurs description_re block -> ~ blank block.
Proof.
  intros (pre & ts & rest & -> & Hp) Hb.
  apply parses_description_re in Hp as (label & ws & cap & -> & Hl & _).
  unfold blank in Hb. rewrite concat_app, concat_singletons in Hb.
  apply Forall_app in Hb as [_ Hb]. apply Forall_app in Hb as [Hb _].
  apply Forall_app in Hb as [Hb _].
  destruct label as [|c label]; [done|]. apply Forall_cons in Hb as [Hc _].
  unfold lower in Hl. simpl in Hl. injection Hl as Hl _.
  rewrite (space_lower _ Hc) in Hl. by subst c.
Qed.

Lemma extract_panel_info_length text :
  length (panel_records text) = 6 -> extract_panel_info text = inr (panel_records text).
Proof.
  unfold extract_panel_info, panel_records. intros ->. by rewrite bool_decide_eq_false_2 by auto.
Qed.

Lemma extract_panel_info_mismatch text :
  length (panel_records text) <> 6 ->
  extract_panel_info text
  = inl (ValueError (panel_count_message (length (panel_records text)))).
Proof.
  intros Hn. unfold extract_panel_info, panel_records in *.
  by rewrite bool_decide_eq_true_2.
Qed.

Lemma not_blank_check s : truthy (strip s) = true -> ~ blank s.
Proof. intros H Hb%strip_nil. by rewrite Hb in H. Qed.

Lemma not_newline_not_in s :
  Forall (fun c => Char.not_newline c = true) s -> Char.newline ∉ s.
Proof. intros H Hin. by eapply Forall_forall in H; [|exact Hin]. Qed.

Lemma not_dquote_not_in s :
  Forall (fun c => Char.not_dquote c = true) s -> Char.dquote ∉ s.
Proof. intros H Hin. by eapply Forall_forall in H; [|exact Hin]. Qed.

Lemma search_occurs r s m : re_search r s = Some m -> occurs r s.
Proof.
  destruct m as [[pre ts] rest]. intros (-> & Hp & _)%re_search_first.
  by exists pre, ts, rest.
Qed.

Lemma Forall_occurs r (bs : list str) :
  forallb (fun b => bool_decide (is_Some (re_search r b))) bs = true ->
  Forall (occurs r) bs.
Proof.
  induction bs as [|b bs IH]; simpl; [by constructor|].
  intros [Hb Hbs]%andb_prop. constructor; [|by apply IH].
  apply bool_decide_eq_true in Hb as [m Hm]. by eapply search_occurs.
Qed.

(** The records of a text, from the blocks the delimiters cut it into. *)
Lemma panel_records_cut text pre blocks :
  split_by panel_re text pre blocks ->
  panel_records text = panel_loop (pre :: map snd blocks).
Proof. intros Hsplit. unfold panel_records. by rewrite (re_split_panels _ _ _ Hsplit). Qed.

Lemma extract_panel_info_cut text pre blocks :
  split_by panel_re text pre blocks ->
  length blocks = 6 ->
  blank pre ->
  Forall (fun b => ~ blank b.2) blocks ->
  extract_panel_info text = inr (map (fun b => panel_of_block b.2) blocks).
Proof.
  intros Hsplit Hlen Hpre Hblocks.
  assert (Hrec : panel_records text = map (fun b => panel_of_block b.2) blocks).
  { rewrite (panel_records_cut _ _ _ Hsplit), panel_loop_cons_blank by done.
    rewrite panel_loop_all, map_map; [done|]. by apply Forall_map. }
  rewrite extract_panel_info_length; rewrite Hrec; [done|]. by rewrite length_map.
Qed.

(** No delimiter or heading in white space. *)
Lemma blank_not_occurs r s : hash_led r -> blank s -> ~ occurs r s.
Proof.
  intros Hr Hs (pre & ts & rest & -> & Hp).
  destruct (parses_hash_led _ _ Hr Hp) as (m & Hm & _). rewrite Hm in Hs.
  unfold blank in Hs. apply Forall_app in Hs as [_ Hs]. by apply Forall_cons in Hs as [? _].
Qed.

(** Six panels written as the prompt asks, none with a blank body, after
    white space only, are parsed into their six records. *)
Lemma extract_panel_info_written pre (ps : list (str * str)) :
  blank pre -> Forall panel_written ps -> length ps = 6 ->
  Forall (fun p => ~ blank p.2) ps ->
  extract_panel_info (pre ++ concat (map panel_text ps))
  = inr (map (fun p => panel_of_block p.2) ps).
Proof.
  intros Hpre Hps Hlen Hbodies.
  rewrite (extract_panel_info_cut _ pre (map panel_cut ps)).
  - by rewrite map_map.
  - apply panels_written; [|done]. by apply blank_not_occurs, Hpre; apply panel_re_hash_led.
  - by rewrite length_map.
  - done.
  - apply Forall_map. by apply Forall_impl with (P := fun p => ~ blank p.2).
Qed.

(** C1. A well-formed text is parsed into six records, one for each block,
    in the order of the blocks. A text is well formed when the delimiters
    [# Panel <digits>] cut it into a part [pre] of white space only and six
    blocks, each with a match of the description pattern. *)
Theorem C1_six_blocks_six_records text pre blocks :
  split_by panel_re text pre blocks ->
  length blocks = 6 ->
  blank pre ->
  Forall (fun b => occurs description_re b.2) blocks ->
  extract_panel_info text = inr (map (fun b => panel_of_block b.2) blocks).
Proof.
  intros Hsplit Hlen Hpre Hdesc. apply (extract_panel_info_cut _ pre); try done.
  eapply Forall_impl; [exact Hdesc|]. intros b Hb. by apply occurs_description_not_blank.
Qed.

Lemma C1_six_blocks_six_records_witness :
  extract_panel_info sample_text
  = inr (map (fun b => panel_of_block b.2) (scan panel_re sample_text).2)
  /\ map (fun b => panel_of_block b.2) (scan panel_re sample_text).2
    = replicate 6 sample_record.
Proof.
  split; [|vm_compute; reflexivity].
  apply (C1_six_blocks_six_records sample_text (scan panel_re sample_text).1).
  - apply scan_split_by, panel_re_productive.
  - vm_compute. reflexivity.
  - vm_compute. constructor.
  - rewrite <- Forall_map with (f := snd) (P := occurs description_re).
    apply Forall_occurs. vm_compute. reflexivity.
Defined.

(** C2. When the number of records differs from six, the result is the
    validation error, whose message names the expected count 6 and the
    count of the records. *)
Theorem C2_count_mismatch text :
  length (panel_records text) <> 6 ->
  extract_panel_info text =
    inl (ValueError (txt "Expected " ++ txt "6" ++ txt " panels, but got "
                     ++ str_of_nat (length (panel_records text))
                     ++ txt ". Check Gemini's output.")).
Proof.
  intros Hn. by rewrite extract_panel_info_mismatch.
Qed.

Lemma C2_count_mismatch_witness :
  extract_panel_info (txt "# Panel 1 Description: a # Panel 2 Description: b") =
    inl (ValueError (txt "Expected 6 panels, but got 2. Check Gemini's output.")).
Proof.
  apply (C2_count_mismatch (txt "# Panel 1 Description: a # Panel 2 Description: b")).
  vm_compute. lia.
Defined.

(** C8, as stated, fails: with six delimiters after a preamble, one of the
    blocks blank, the loop skips the blank block, the records are six and the
    list is returned. *)
Lemma C8_blank_block_counterexample :
  split_by panel_re blank_block_text
    (scan panel_re blank_block_text).1 (scan panel_re blank_block_text).2 /\
  ~ blank (scan panel_re blank_block_text).1 /\
  length (scan panel_re blank_block_text).2 = 6 /\
  length (panel_records blank_block_text) = 6 /\
  extract_panel_info blank_block_text = inr (panel_records blank_block_text) /\
  nth 0 (panel_records blank_block_text) sample_record
  = {| Description := txt "Unknown scene."; Text := txt "..." |}.
Proof.
  split_and!.
  - apply scan_split_by, panel_re_productive.
  - apply not_blank_check. vm_compute. reflexivity.
  - vm_compute. reflexivity.
  - vm_compute. reflexivity.
  - vm_compute. reflexivity.
  - vm_compute. reflexivity.
Qed.

(** C8, amended. A text with anything but white space before its first
    delimiter is parsed with that part as one more record, the first; with
    six blocks after it, none of them blank, the records are seven and the
    result is the validation error with the count 7. *)
Theorem C8_preamble_is_a_record text pre blocks :
  split_by panel_re text pre blocks ->
  ~ blank pre ->
  panel_records text = panel_of_block pre :: panel_loop (map snd blocks) /\
  (length blocks = 6 -> Forall (fun b => ~ blank b.2) blocks ->
   length (panel_records text) = 7 /\
   extract_panel_info text =
     inl (ValueError (txt "Expected 6 panels, but got 7. Check Gemini's output."))).
Proof.
  intros Hsplit Hpre.
  assert (Hrec : panel_records text = panel_of_block pre :: panel_loop (map snd blocks)).
  { by rewrite (panel_records_cut _ _ _ Hsplit), panel_loop_cons. }
  split; [done|]. intros Hlen Hblocks.
  assert (Hseven : length (panel_records text) = 7).
  { rewrite Hrec, panel_loop_all by (by apply Forall_map). simpl.
    by rewrite !length_map, Hlen. }
  split; [done|]. rewrite extract_panel_info_mismatch; rewrite Hseven; [done|lia].
Qed.

Lemma C8_preamble_is_a_record_witness :
  (scan panel_re preamble_text).1 = txt "Here are your panels:" ++ nl /\
  length (panel_records preamble_text) = 7 /\
  extract_panel_info preamble_text =
    inl (ValueError (txt "Expected 6 panels, but got 7. Check Gemini's output.")).
Proof.
  split; [vm_compute; reflexivity|].
  apply (C8_preamble_is_a_record preamble_text (scan panel_re preamble_text).1
           (scan panel_re preamble_text).2).
  - apply scan_split_by, panel_re_productive.
  - apply not_blank_check. vm_compute. reflexivity.
  - vm_compute. reflexivity.
  - apply Forall_forall. intros b Hb. apply not_blank_check.
    revert b Hb. apply Forall_forall. vm_compute. repeat constructor.
Defined.

(** C3, as stated, fails, whether a line matching the label is read as a line
    with a match of the whole pattern in it or as a line that carries the
    label. In the first block no line has a match of the pattern, yet the
    match runs from the label over the line break and the description is the
    next line, not [Unknown scene.]. In the second block a line is the label
    itself, yet the pattern matches nowhere, there is no captured text, and
    the description is [Unknown scene.]. *)
Lemma C3_single_line_counterexample :
  (~ blank label_then_text_block /\
   lines label_then_text_block = [txt "Description:"; txt "Text: " ++ quoted "hi"] /\
   Forall (fun line => ~ occurs description_re line) (lines label_then_text_block) /\
   Description (panel_of_block label_then_text_block) = txt "Text: " ++ quoted "hi" /\
   Description (panel_of_block label_then_text_block) <> txt "Unknown scene.") /\
  (~ blank bare_label_block /\
   lines bare_label_block = [[]; txt "Description:"; []] /\
   txt "Description:" ∈ lines bare_label_block /\
   ~ occurs description_re bare_label_block /\
   Description (panel_of_block bare_label_block) = txt "Unknown scene.").
Proof.
  split; split_and!.
  - apply not_blank_check. vm_compute. reflexivity.
  - vm_compute. reflexivity.
  - replace (lines label_then_text_block)
      with [txt "Description:"; txt "Text: " ++ quoted "hi"] by (vm_compute; reflexivity).
    repeat constructor; apply re_search_none; vm_compute; reflexivity.
  - vm_compute. reflexivity.
  - vm_compute. discriminate.
  - apply not_blank_check. vm_compute. reflexivity.
  - vm_compute. reflexivity.
  - replace (lines bare_label_block) with [[]; txt "Description:"; []]
      by (vm_compute; reflexivity).
    set_solver.
  - apply re_search_none. vm_compute. reflexivity.
  - vm_compute. reflexivity.
Qed.

(** C3, amended. The record of a block that is not blank has the
    description [Unknown scene.] when the description pattern matches nowhere
    in the block; when it matches, there is a first match, and the
    description is the text that match captured, stripped. A match is the
    label in any case, then white space, which may run over line breaks, then
    the captured text: one or more characters, none of them a line break. *)
Theorem C3_description block :
  ~ blank block ->
  panel_loop [block] = [panel_of_block block] /\
  (~ occurs description_re block ->
   Description (panel_of_block block) = txt "Unknown scene.") /\
  (occurs description_re block ->
   exists pre ts rest, first_match description_re block pre ts rest) /\
  (forall pre ts rest,
     first_match description_re block pre ts rest ->
     Description (panel_of_block block) = strip (group description_re ts 1) /\
     exists label ws,
       concat ts = label ++ ws ++ group description_re ts 1 /\
       lower label = txt "description:" /\ blank ws /\
       group description_re ts 1 <> [] /\
       (Char.newline ∉ group description_re ts 1)).
Proof.
  intros Hb. split; [by rewrite panel_loop_cons|]. split_and!.
  - intros Hno. unfold panel_of_block. simpl. by rewrite not_occurs_search.
  - intros Hocc.
    destruct (re_search description_re block) as [[[pre ts] rest]|] eqn:Hs.
    + exists pre, ts, rest. by apply re_search_first.
    + by apply re_search_none in Hs.
  - intros pre ts rest Hfirst. pose proof Hfirst as (_ & Hp & _).
    apply first_match_search in Hfirst. split.
    { unfold panel_of_block. simpl. by rewrite Hfirst. }
    apply parses_description_re in Hp as (label & ws & cap & Hts & Hl & Hws & Hne & Hcap & ->).
    exists label, ws. split_and!; try done.
    + rewrite Hts, concat_app, concat_singletons. simpl. by rewrite app_nil_r.
    + by apply not_newline_not_in.
Qed.

Lemma C3_description_witness :
  Description (panel_of_block no_label_block) = txt "Unknown scene." /\
  Description (panel_of_block next_line_block) = txt "hero, city".
Proof.
  split.
  - apply (C3_description no_label_block).
    + apply not_blank_check. vm_compute. reflexivity.
    + apply re_search_none. vm_compute. reflexivity.
  - destruct (re_search description_re next_line_block) as [[[pre ts] rest]|] eqn:Hs;
      [|by vm_compute in Hs].
    destruct (C3_description next_line_block) as (_ & _ & _ & Hcap).
    + apply not_blank_check. vm_compute. reflexivity.
    + destruct (Hcap pre ts rest (re_search_first _ _ _ _ _ Hs)) as [-> _].
      vm_compute in Hs. injection Hs as <- <- <-. vm_compute. reflexivity.
Defined.

(** C4. The record of a block that is not blank has the text [...] when the
    quoted-dialogue pattern matches nowhere in the block. *)
Theorem C4_no_dialogue block :
  ~ blank block ->
  ~ occurs text_re block ->
  panel_loop [block] = [panel_of_block block] /\
  Text (panel_of_block block) = txt "...".
Proof.
  intros Hb Hno. split; [by rewrite panel_loop_cons|].
  unfold panel_of_block. simpl.
  by rewrite (re_findall_unfold _ text_re_productive), not_occurs_search.
Qed.

Lemma C4_no_dialogue_witness :
  Text (panel_of_block (txt "Description: hero, city")) = txt "...".
Proof.
  apply (C4_no_dialogue (txt "Description: hero, city")).
  - apply not_blank_check. vm_compute. reflexivity.
  - apply re_search_none. vm_compute. reflexivity.
Defined.

(** The texts the quoted dialogues of a block capture. *)
Lemma text_re_captures (occs : list (list str * str)) :
  Forall (fun o => parses text_re o.1) occs ->
  Forall (fun o => exists label ws cap,
            concat o.1 = label ++ ws ++ [Char.dquote] ++ cap ++ [Char.dquote] /\
            lower label = txt "text:" /\ blank ws /\
            cap <> [] /\ (Char.dquote ∉ cap) /\ group text_re o.1 1 = cap) occs /\
  flat_map (fun o => groups text_re o.1) occs = map (fun o => group text_re o.1 1) occs.
Proof.
  induction 1 as [|[ts piece] occs Hp _ [Hshape Hcaps]]; [by split; [constructor|]|].
  cbn [fst] in Hp.
  apply parses_text_re in Hp as (label & ws & cap & Hts & Hl & Hws & Hne & Hcap & Hg).
  assert (Hgrp : group text_re ts 1 = cap) by (unfold group; by rewrite Hg).
  split.
  - constructor; [|done]. exists label, ws, cap. cbn [fst]. split_and!; try done.
    + rewrite Hts, concat_app, concat_singletons. simpl. by rewrite ?app_nil_r.
    + by apply not_dquote_not_in.
  - cbn [flat_map map fst]. by rewrite Hg, Hcaps, Hgrp.
Qed.

(** C5. The record of a block with two or more quoted dialogues has as its
    text what they capture, in their order, with one space between each two.
    The quoted dialogues of a block are the successive matches [occs] of the
    pattern in it, each after the end of the one before; a match is the label
    in any case, white space, and the captured text between double quotes. *)
Theorem C5_dialogues_joined block pre occs :
  ~ blank block ->
  split_by text_re block pre occs ->
  2 <= length occs ->
  Forall (fun o => exists label ws cap,
            concat o.1 = label ++ ws ++ [Char.dquote] ++ cap ++ [Char.dquote] /\
            lower label = txt "text:" /\ blank ws /\
            cap <> [] /\ (Char.dquote ∉ cap) /\ group text_re o.1 1 = cap) occs /\
  panel_loop [block] = [panel_of_block block] /\
  Text (panel_of_block block) = join [Char.space] (map (fun o => group text_re o.1 1) occs).
Proof.
  intros Hb Hsplit Hlen.
  destruct (text_re_captures occs (split_by_parses _ _ _ _ Hsplit)) as [Hshape Hcaps].
  split; [done|]. split; [by rewrite panel_loop_cons|].
  unfold panel_of_block. simpl.
  rewrite (re_findall_by _ text_re_productive _ _ _ Hsplit), Hcaps.
  destruct occs; [simpl in *; lia|done].
Qed.

Lemma C5_dialogues_joined_witness :
  Text (panel_of_block two_dialogues)
  = join [Char.space] (map (fun o => group text_re o.1 1) (scan text_re two_dialogues).2)
  /\ join [Char.space] (map (fun o => group text_re o.1 1) (scan text_re two_dialogues).2)
     = txt "Hero: Stop! Thief: Never!".
Proof.
  split; [|vm_compute; reflexivity].
  apply (C5_dialogues_joined two_dialogues (scan text_re two_dialogues).1).
  - apply not_blank_check. vm_compute. reflexivity.
  - apply scan_split_by, text_re_productive.
  - vm_compute. lia.
Defined.

End Panels.

(** * [extract_story_info] *)

Section Story.

Implicit Types (text pre : str) (sec : list str * str) (secs : list (list str * str)).
Implicit Types (m : gmap str str) (k : str).

Lemma re_split_sections text pre secs :
  split_by heading_re text pre secs ->
  re_split heading_re text = pre :: flat_map heading_pair secs.
Proof.
  intros H. rewrite (re_split_by _ heading_re_productive _ _ _ H). f_equal.
  apply split_by_parses in H. induction H as [|[ts b] secs Hp _ IH]; [done|].
  cbn [flat_map fst snd] in *. rewrite IH. f_equal.
  apply parses_heading_re in Hp as (ws & name & -> & _). done.
Qed.

Lemma length_heading_pairs secs : length (flat_map heading_pair secs) = length secs * 2.
Proof. induction secs as [|sec secs IH]; simpl; lia. Qed.

Lemma sections_lookup pre seen sec todo :
  (pre :: flat_map heading_pair (seen ++ sec :: todo)) !! (1 + length seen * 2)
    = Some (group heading_re sec.1 1) /\
  (pre :: flat_map heading_pair (seen ++ sec :: todo)) !! (1 + length seen * 2 + 1)
    = Some sec.2.
Proof.
  assert (Hcons : forall (l : list str) i, (pre :: l) !! (1 + i) = l !! i) by done.
  rewrite flat_map_app, <- Nat.add_assoc, !Hcons.
  rewrite !lookup_app_r by (rewrite length_heading_pairs; lia).
  rewrite length_heading_pairs.
  replace (length seen * 2 - length seen * 2) with 0 by lia.
  replace (length seen * 2 + 1 - length seen * 2) with 1 by lia. done.
Qed.

(** The loop over the odd indices stores the headings in their order; no
    index is out of range. *)
Lemma for_each_sections pre todo :
  forall seen m,
  for_each (story_step (pre :: flat_map heading_pair (seen ++ todo)))
    (map (fun j => 1 + j * 2) (seq (length seen) (length todo))) m
  = inr (fold_left store_section todo m).
Proof.
  induction todo as [|sec todo IH]; intros seen m; [done|].
  cbn [length seq map for_each fold_left].
  destruct (sections_lookup pre seen sec todo) as [Hname Hcontent].
  unfold story_step at 1, index. rewrite Hname, Hcontent.
  replace (seen ++ sec :: todo) with ((seen ++ [sec]) ++ todo) by (by rewrite <- app_assoc).
  replace (S (length seen)) with (length (seen ++ [sec])) by (rewrite length_app; simpl; lia).
  fold (section_key sec).
  destruct (in_list (section_key sec) story_sections) eqn:Hin;
    rewrite IH; do 2 f_equal; unfold store_section; by rewrite Hin.
Qed.

Lemma py_range_odd n :
  py_range 1 (1 + n * 2) 2 = map (fun j => 1 + j * 2) (seq 0 n).
Proof.
  unfold py_range. do 2 f_equal.
  replace (1 + n * 2 - 1 + (2 - 1)) with (n * 2 + 1) by lia.
  rewrite Nat.div_add_l by done. simpl. lia.
Qed.

(** The mapping [extract_story_info] returns, from the headings of the text. *)
Lemma extract_story_info_fold text pre secs :
  split_by heading_re text pre secs ->
  extract_story_info text = inr (fold_left store_section secs ∅).
Proof.
  intros H. unfold extract_story_info. rewrite (re_split_sections _ _ _ H).
  cbn [length]. rewrite length_heading_pairs.
  change (S (length secs * 2)) with (1 + length secs * 2). rewrite py_range_odd.
  apply (for_each_sections pre secs []).
Qed.

(** A story written as the prompt asks is parsed section by section. *)
Lemma extract_story_info_written pre (hs : list (str * str * str)) :
  ~ occurs heading_re pre -> Forall section_written hs ->
  extract_story_info (pre ++ concat (map section_text hs))
  = inr (fold_left store_section (map section_cut hs) ∅).
Proof.
  intros Hpre Hhs. apply (extract_story_info_fold _ pre). by apply sections_written.
Qed.

Lemma store_section_other m sec k :
  section_key sec <> k -> store_section m sec !! k = m !! k.
Proof.
  intros Hk. unfold store_section. destruct (in_list _ _); [|done].
  by rewrite lookup_insert_ne.
Qed.

Lemma fold_store_other secs :
  forall m k, Forall (fun sec => section_key sec <> k) secs ->
  fold_left store_section secs m !! k = m !! k.
Proof.
  induction secs as [|sec secs IH]; intros m k Hall; [done|].
  apply Forall_cons in Hall as [Hsec Hall]. simpl.
  by rewrite IH, store_section_other.
Qed.

(** The last heading with a key gives the key its content. *)
Lemma fold_store_last secs1 sec secs2 m :
  section_key sec ∈ story_sections ->
  Forall (fun sec' => section_key sec' <> section_key sec) secs2 ->
  fold_left store_section (secs1 ++ sec :: secs2) m !! section_key sec
  = Some (strip sec.2).
Proof.
  intros Hin Hlast. rewrite fold_left_app. simpl. rewrite fold_store_other by done.
  unfold store_section, in_list. rewrite bool_decide_eq_true_2 by done.
  apply lookup_insert_eq.
Qed.

Lemma store_section_dom m sec :
  dom m ⊆ list_to_set story_sections ->
  dom (store_section m sec) ⊆ (list_to_set story_sections : gset str).
Proof.
  intros Hm. unfold store_section, in_list. case_bool_decide as Hin; [|done].
  rewrite dom_insert. apply union_least; [|done].
  apply singleton_subseteq_l. by apply elem_of_list_to_set.
Qed.

Lemma fold_store_dom secs :
  forall m, dom m ⊆ list_to_set story_sections ->
  dom (fold_left store_section secs m) ⊆ (list_to_set story_sections : gset str).
Proof.
  induction secs as [|sec secs IH]; intros m Hm; [done|].
  simpl. by apply IH, store_section_dom.
Qed.

Lemma filter_nil_Forall {A} (P : A -> Prop) `{!forall x, Decision (P x)} (l : list A) :
  filter P l = [] -> Forall (fun x => ~ P x) l.
Proof.
  intros Hnil. apply Forall_forall. intros x Hx HP.
  by eapply filter_nil_not_elem_of.
Qed.

(** A key that one heading only has is bound to the content of that heading. *)
Lemma fold_store_once secs sec m :
  sec ∈ secs ->
  section_key sec ∈ story_sections ->
  length (filter (fun sec' => section_key sec' = section_key sec) secs) = 1 ->
  fold_left store_section secs m !! section_key sec = Some (strip sec.2).
Proof.
  intros (secs1 & secs2 & ->)%list_elem_of_split Hin Hone.
  apply fold_store_last; [done|].
  rewrite filter_app, filter_cons_True, length_app in Hone by done. simpl in Hone.
  apply (filter_nil_Forall (fun sec' => section_key sec' = section_key sec)).
  destruct (filter _ secs2); [done|]. simpl in Hone. lia.
Qed.

(** C6. A text with each of the five headings once, in any order, is parsed
    into a mapping with exactly the five keys, each bound to the stripped
    content after its heading; other headings add no key. The headings of a
    text are the successive matches [secs] of the heading pattern, each with
    the content up to the next; the key of a heading is its word in lower
    case. *)
Theorem C6_five_headings text pre secs :
  split_by heading_re text pre secs ->
  Forall (fun k => length (filter (fun sec => section_key sec = k) secs) = 1)
    story_sections ->
  exists m,
    extract_story_info text = inr m /\
    dom m = list_to_set story_sections /\
    Forall (fun sec => section_key sec ∈ story_sections ->
                       m !! section_key sec = Some (strip sec.2)) secs.
Proof.
  intros Hsplit Honce. exists (fold_left store_section secs ∅).
  split; [by eapply extract_story_info_fold|].
  assert (Hbound : Forall (fun sec => section_key sec ∈ story_sections ->
            fold_left store_section secs ∅ !! section_key sec = Some (strip sec.2)) secs).
  { apply Forall_forall. intros sec Hsec Hin. apply fold_store_once; [done..|].
    by eapply Forall_forall in Honce. }
  split; [|done]. apply set_eq. intros k. split.
  - intros Hk. by apply (fold_store_dom secs ∅).
  - intros Hk%elem_of_list_to_set. apply elem_of_dom.
    pose proof Honce as Hone. eapply Forall_forall in Hone; [|exact Hk].
    destruct (filter (fun sec => section_key sec = k) secs) as [|sec ?] eqn:Hf; [done|].
    assert (Hsec : sec ∈ filter (fun sec => section_key sec = k) secs)
      by (rewrite Hf; left).
    apply list_elem_of_filter in Hsec as [<- Hsec].
    eapply Forall_forall in Hbound; [|exact Hsec]. by rewrite Hbound.
Qed.

Lemma C6_five_headings_witness :
  exists m,
    extract_story_info story_text = inr m /\
    dom m = list_to_set story_sections /\
    m !! txt "title" = Some (txt "The Brave Cat") /\
    m !! txt "footer" = None.
Proof.
  destruct (C6_five_headings story_text (scan heading_re story_text).1
              (scan heading_re story_text).2) as (m & Hm & Hdom & Hbound).
  - apply scan_split_by, heading_re_productive.
  - vm_compute. repeat constructor.
  - exists m. split_and!; [done..| |].
    + assert (Hsec : nth 1 (scan heading_re story_text).2 ([], []) ∈ (scan heading_re story_text).2)
        by (vm_compute; repeat constructor).
      eapply Forall_forall in Hbound; [|exact Hsec].
      apply Hbound. vm_compute. repeat constructor.
    + apply not_elem_of_dom. rewrite Hdom.
      intros Hin%elem_of_list_to_set%list_elem_of_In.
      vm_compute in Hin. intuition discriminate.
Defined.

(** C9. [extract_story_info] returns a mapping for every text, with no key
    but the five; [re.split] gives an odd number of texts, and the two
    indices of every round of the loop are in range. *)
Theorem C9_extract_story_info_total text :
  Nat.Odd (length (re_split heading_re text)) /\
  (forall i, i ∈ py_range 1 (length (re_split heading_re text)) 2 ->
     is_Some (re_split heading_re text !! i) /\
     is_Some (re_split heading_re text !! (i + 1))) /\
  exists m, extract_story_info text = inr m /\ dom m ⊆ list_to_set story_sections.
Proof.
  pose proof (scan_split_by heading_re heading_re_productive text) as Hsplit.
  destruct (scan heading_re text) as [pre secs]. simpl in Hsplit.
  rewrite (re_split_sections _ _ _ Hsplit). cbn [length].
  rewrite length_heading_pairs. split_and!.
  - exists (length secs). lia.
  - change (S (length secs * 2)) with (1 + length secs * 2). rewrite py_range_odd.
    intros i (j & <- & Hj%in_seq)%list_elem_of_In%in_map_iff.
    split; apply lookup_lt_is_Some; simpl; rewrite length_heading_pairs; lia.
  - exists (fold_left store_section secs ∅).
    split; [by eapply extract_story_info_fold|]. by apply fold_store_dom.
Qed.

(** C10. A recognised heading that occurs more than once leaves its key
    bound to the stripped content after its last occurrence, whatever
    follows the earlier ones. *)
Theorem C10_last_heading_wins text pre secs1 sec secs2 :
  split_by heading_re text pre (secs1 ++ sec :: secs2) ->
  section_key sec ∈ story_sections ->
  Forall (fun sec' => section_key sec' <> section_key sec) secs2 ->
  exists m,
    extract_story_info text = inr m /\
    m !! section_key sec = Some (strip sec.2).
Proof.
  intros Hsplit Hin Hlast. exists (fold_left store_section (secs1 ++ sec :: secs2) ∅).
  split; [by eapply extract_story_info_fold|]. by apply fold_store_last.
Qed.

Lemma C10_last_heading_wins_witness :
  exists m,
    extract_story_info story_twice = inr m /\
    m !! txt "title" = Some (txt "Second").
Proof.
  pose (secs := (scan heading_re story_twice).2).
  destruct (C10_last_heading_wins story_twice (scan heading_re story_twice).1
              (take 2 secs) (nth 2 secs ([], [])) []) as (m & Hm & Hk).
  - replace (take 2 secs ++ [nth 2 secs ([], [])]) with secs by (vm_compute; reflexivity).
    apply scan_split_by, heading_re_productive.
  - vm_compute. repeat constructor.
  - constructor.
  - exists m. split; [done|].
    replace (txt "title") with (section_key (nth 2 secs ([], []))) by (vm_compute; reflexivity).
    rewrite Hk. vm_compute. reflexivity.
Defined.

End Story.

(** * The art style *)

Section ArtStyle.

Implicit Types (entered s : str) (c : ascii).

Lemma upper_initial c x :
  x ∈ ["M"%char; "A"%char; "B"%char] ->
  Char.upper c = x <-> Char.lower c = Char.lower x.
Proof.
  intros Hx. repeat (apply elem_of_cons in Hx as [->|Hx]); [| | |by apply elem_of_nil in Hx];
    destruct c as [[] [] [] [] [] [] [] []]; vm_compute; split; congruence.
Qed.

(** A style entered in any case, with any white space around it, is that
    style capitalized. *)
Lemma capitalize_style s style :
  style ∈ valid_styles -> capitalize s = style <-> lower s = lower style.
Proof.
  intros Hstyle.
  assert (exists x rest, style = x :: rest /\ x ∈ ["M"%char; "A"%char; "B"%char] /\
            map Char.lower rest = rest) as (x & rest & -> & Hx & Hrest).
  { repeat (apply elem_of_cons in Hstyle as [->|Hstyle]); [| | | |by apply elem_of_nil in Hstyle];
      eexists _, _; (split; [reflexivity|]); (split; [|reflexivity]);
      repeat constructor. }
  destruct s as [|c s]; [done|]. unfold lower. simpl. rewrite Hrest.
  split; intros [= Hc Hs]; f_equal; try done; by apply (upper_initial c x).
Qed.

(** C7. The art style used is the entered one, stripped and capitalized,
    when that is one of the four styles, and [Anime] otherwise. *)
Theorem C7_art_style entered :
  (capitalize (strip entered) ∈ valid_styles ->
   main_art_style entered = capitalize (strip entered)) /\
  (capitalize (strip entered) ∉ valid_styles ->
   main_art_style entered = txt "Anime") /\
  main_art_style entered ∈ valid_styles.
Proof.
  unfold main_art_style, in_list. case_bool_decide as Hin; simpl.
  - split_and!; [done..|]. done.
  - split_and!; [done..|]. apply list_elem_of_In. vm_compute. tauto.
Qed.

Lemma C7_art_style_witness :
  main_art_style (txt "  mANGA ") = txt "Manga" /\
  main_art_style (txt "cubist") = txt "Anime".
Proof.
  split.
  - apply (C7_art_style (txt "  mANGA ")). vm_compute. repeat constructor.
  - apply (C7_art_style (txt "cubist")). intros Hin%list_elem_of_In.
    vm_compute in Hin. intuition discriminate.
Defined.

(** The style is recognised whatever the case of its letters. *)
Lemma main_art_style_any_case entered style :
  style ∈ valid_styles -> lower (strip entered) = lower style ->
  main_art_style entered = style.
Proof.
  intros Hstyle Hl%(capitalize_style _ _ Hstyle).
  unfold main_art_style, in_list. rewrite Hl. by rewrite bool_decide_eq_true_2.
Qed.

End ArtStyle.

(** * White space around a text *)

Section Strip.

Implicit Types (s t ws : str).

Lemma blank_nil : blank [].
Proof. constructor. Qed.

#[local] Hint Resolve blank_nil : core.

Lemma blank_app s t : blank (s ++ t) <-> blank s /\ blank t.
Proof. apply Forall_app. Qed.

Lemma padded_refl s : padded s s.
Proof. exists [], []. by rewrite app_nil_r. Qed.

Lemma padded_pad_left ws s s' : blank ws -> padded s s' -> padded s (ws ++ s').
Proof.
  intros Hws (w1 & w2 & Hw1 & Hw2 & ->). exists (ws ++ w1), w2.
  split_and!; [by apply blank_app|done|by rewrite <- app_assoc].
Qed.

Lemma padded_pad_right ws s : blank ws -> padded s (s ++ ws).
Proof. intros Hws. by exists [], ws. Qed.

Lemma lstrip_app_blank ws s : blank ws -> lstrip (ws ++ s) = lstrip s.
Proof. induction 1 as [|c ws Hc _ IH]; simpl; [done|]. by rewrite Hc. Qed.

Lemma lstrip_app_not_blank s t : ~ blank s -> lstrip (s ++ t) = lstrip s ++ t.
Proof.
  induction s as [|c s IH]; intros Hs; simpl.
  - by destruct Hs.
  - destruct (Char.is_space c) eqn:Hc; [|done]. apply IH. intros Hb. apply Hs.
    by constructor.
Qed.

Lemma rstrip_app_blank s ws : blank ws -> rstrip (s ++ ws) = rstrip s.
Proof.
  intros Hws. unfold rstrip. rewrite rev_app_distr, lstrip_app_blank; [done|].
  by apply Forall_rev.
Qed.

Lemma lstrip_split s : exists ws, blank ws /\ s = ws ++ lstrip s.
Proof.
  induction s as [|c s (ws & Hws & IH)]; simpl; [by exists []|].
  destruct (Char.is_space c) eqn:Hc; [|by exists []].
  exists (c :: ws). split; [by constructor|]. simpl. by rewrite <- IH.
Qed.

Lemma rstrip_split s : exists ws, blank ws /\ s = rstrip s ++ ws.
Proof.
  destruct (lstrip_split (rev s)) as (ws & Hws & Hs). exists (rev ws).
  split; [by apply Forall_rev|]. unfold rstrip.
  by rewrite <- rev_app_distr, <- Hs, rev_involutive.
Qed.

(** A text is its stripped text with white space around it. *)
Lemma strip_split s : padded (strip s) s.
Proof.
  destruct (lstrip_split s) as (w1 & Hw1 & H1).
  destruct (rstrip_split (lstrip s)) as (w2 & Hw2 & H2).
  exists w1, w2. split_and!; [done..|]. unfold strip. by rewrite <- H2.
Qed.

(** White space around a text is stripped with it. *)
Lemma strip_padded s s' : padded s s' -> strip s' = strip s.
Proof.
  intros (w1 & w2 & Hw1 & Hw2 & ->). unfold strip. rewrite lstrip_app_blank by done.
  destruct (decide (lstrip s = [])) as [Hs|Hs].
  - apply lstrip_nil in Hs. rewrite (proj2 (lstrip_nil (s ++ w2))); [|by apply blank_app].
    by rewrite (proj2 (lstrip_nil s)).
  - rewrite lstrip_app_not_blank, rstrip_app_blank; [done..|].
    intros Hb. by apply Hs, lstrip_nil.
Qed.

Lemma strip_idempotent s : strip (strip s) = strip s.
Proof. symmetry. apply strip_padded, strip_split. Qed.

Lemma padded_blank s s' : padded s s' -> blank s' <-> blank s.
Proof. intros H%strip_padded. by rewrite <- !strip_nil, H. Qed.

Lemma padded_elem_of s s' c : padded s s' -> c ∈ s -> c ∈ s'.
Proof. intros (w1 & w2 & _ & _ & ->) Hc. rewrite !elem_of_app. auto. Qed.

End Strip.

(** * White space around the text a pattern cuts *)

Section Padding.

Variable r : regex.
Hypothesis led : hash_led r.
Hypothesis tight : ends_tight r.

Implicit Types (s pre rest ws : str) (ts : list str) (blocks : list (list str * str)).

Lemma hash_not_blank ws s : blank (ws ++ "#"%char :: s) -> False.
Proof. intros [_ H]%blank_app. by apply Forall_cons in H as [? _]. Qed.

(** A match does not start in white space before the text ... *)
Lemma match_after_blank ws s pre ts rest :
  blank ws -> parses r ts -> ws ++ s = pre ++ concat ts ++ rest ->
  exists pre0, pre = ws ++ pre0 /\ s = pre0 ++ concat ts ++ rest.
Proof.
  intros Hws Hp Heq. destruct (parses_hash_led _ _ led Hp) as (m & Hm & _).
  apply app_eq_app in Heq as [l [[-> Hs]|[-> Hs]]].
  - destruct l as [|c l]; [exists []; simpl in Hs; by rewrite !app_nil_r|].
    rewrite Hm in Hs. injection Hs as <- _. by apply hash_not_blank in Hws.
  - by exists l.
Qed.

(** ... and does not end in white space after it. *)
Lemma match_before_blank ws s pre ts rest :
  blank ws -> parses r ts -> s ++ ws = pre ++ concat ts ++ rest ->
  exists rest0, rest = rest0 ++ ws /\ s = pre ++ concat ts ++ rest0.
Proof.
  intros Hws Hp Heq. destruct (tight _ Hp) as (m & c & Hm & Hc).
  rewrite app_assoc in Heq.
  apply app_eq_app in Heq as [l [[-> ->]|[Hs ->]]].
  - exists l. split; [done|by rewrite <- app_assoc].
  - destruct l as [|x l _] using rev_ind.
    + exists []. rewrite app_nil_r in Hs. by rewrite app_nil_r, <- Hs.
    + rewrite Hm, !app_assoc in Hs. apply app_inj_tail in Hs as [_ <-].
      apply blank_app in Hws as [[_ Hx]%blank_app _].
      apply Forall_cons in Hx as [Hx _]. congruence.
Qed.

Lemma first_match_pad_left ws s pre ts rest :
  blank ws -> first_match r s pre ts rest -> first_match r (ws ++ s) (ws ++ pre) ts rest.
Proof.
  intros Hws (-> & Hp & Hleft). split_and!; [by rewrite <- app_assoc|done|].
  intros pre' ts' rest' Heq Hp'.
  destruct (match_after_blank _ _ _ _ _ Hws Hp' Heq) as (pre0 & -> & Heq0).
  destruct (Hleft _ _ _ Heq0 Hp') as [Hle Hpr]. rewrite !length_app.
  split; [lia|]. intros Hlen. apply Hpr. lia.
Qed.

Lemma first_match_pad_right ws s pre ts rest :
  blank ws -> first_match r s pre ts rest -> first_match r (s ++ ws) pre ts (rest ++ ws).
Proof.
  intros Hws (-> & Hp & Hleft). split_and!; [by rewrite <- !app_assoc|done|].
  intros pre' ts' rest' Heq Hp'.
  destruct (match_before_blank _ _ _ _ _ Hws Hp' Heq) as (rest0 & -> & Heq0).
  by apply (Hleft _ _ _ Heq0 Hp').
Qed.

Lemma not_occurs_pad s s' : padded s s' -> ~ occurs r s -> ~ occurs r s'.
Proof.
  intros (w1 & w2 & Hw1 & Hw2 & ->) Hno (pre & ts & rest & Heq & Hp).
  destruct (match_after_blank _ _ _ _ _ Hw1 Hp Heq) as (pre0 & -> & Heq0).
  destruct (match_before_blank _ _ _ _ _ Hw2 Hp Heq0) as (rest0 & -> & Heq1).
  apply Hno. by exists pre0, ts, rest0.
Qed.

Lemma split_by_pad_right ws s pre blocks :
  blank ws -> split_by r s pre blocks ->
  exists pre' blocks',
    split_by r (s ++ ws) pre' blocks' /\ padded pre pre' /\
    Forall2 (fun b b' => b'.1 = b.1 /\ padded b.2 b'.2) blocks blocks'.
Proof.
  intros Hws. induction 1 as [s Hno|s pre ts rest piece blocks Hfirst _ IH].
  - exists (s ++ ws), []. pose proof (padded_pad_right ws s Hws) as Hpad.
    split_and!; [|done|constructor]. apply split_by_end. by eapply not_occurs_pad.
  - destruct IH as (piece' & blocks' & Hsplit & Hpiece & Hblocks).
    exists pre, ((ts, piece') :: blocks'). split_and!.
    + eapply split_by_match; [by apply first_match_pad_right|done].
    + apply padded_refl.
    + by constructor.
Qed.

(** White space around a text stays around the parts the pattern cuts it
    into. *)
Lemma split_by_padded s s' pre blocks :
  padded s s' -> split_by r s pre blocks ->
  exists pre' blocks',
    split_by r s' pre' blocks' /\ padded pre pre' /\
    Forall2 (fun b b' => b'.1 = b.1 /\ padded b.2 b'.2) blocks blocks'.
Proof.
  intros (w1 & w2 & Hw1 & Hw2 & ->) Hsplit.
  destruct (split_by_pad_right w2 _ _ _ Hw2 Hsplit) as (pre' & blocks' & Hsplit' & Hpre & Hblocks).
  rewrite app_assoc. exists (w1 ++ pre'), blocks'.
  split_and!; [|by apply padded_pad_left|done]. rewrite <- app_assoc.
  destruct Hsplit' as [s0 Hno|s0 pre0 ts rest piece blocks0 Hfirst Hrest].
  - apply split_by_end. eapply not_occurs_pad; [|exact Hno].
    apply padded_pad_left; [done|apply padded_refl].
  - eapply split_by_match; [by apply first_match_pad_left|done].
Qed.

End Padding.

(** * The callers of the parsers *)

Section Callers.

Implicit Types (text : str) (environ : gmap str str) (generate_content : service).

Lemma digit_not_space c : Char.is_digit c = true -> Char.is_space c = false.
Proof. destruct c as [[] [] [] [] [] [] [] []]; vm_compute; congruence. Qed.

Lemma panel_re_ends_tight : ends_tight panel_re.
Proof.
  intros ts (ds & -> & Hne & Hds)%parses_panel_re.
  destruct ds as [|c ds _] using rev_ind; [done|].
  exists (txt "# Panel " ++ ds), c. apply Forall_app in Hds as [_ [Hc _]%Forall_cons].
  split; [|by apply digit_not_space].
  rewrite concat_app, concat_singletons. simpl. by rewrite app_nil_r.
Qed.

Lemma heading_re_ends_tight : ends_tight heading_re.
Proof.
  intros ts (ws & name & -> & _ & Hne & Hname & _)%parses_heading_re.
  destruct name as [|c name _] using rev_ind; [done|].
  exists ("#"%char :: ws ++ name), c. apply Forall_app in Hname as [_ [Hc _]%Forall_cons].
  split; [|by apply space_not_word]. simpl. by rewrite app_nil_r, <- !app_assoc.
Qed.

Lemma fold_store_padded (secs secs' : list (list str * str)) :
  Forall2 (fun b b' => b'.1 = b.1 /\ padded b.2 b'.2) secs secs' ->
  forall m, fold_left store_section secs' m = fold_left store_section secs m.
Proof.
  induction 1 as [|[ts c] [ts' c'] secs secs' [Hts Hc] _ IH]; intros m; [done|].
  simpl in *. subst ts'. rewrite IH. f_equal.
  unfold store_section, section_key. simpl. by rewrite (strip_padded _ _ Hc).
Qed.

(** White space around a text does not change the story parsed from it. *)
Lemma extract_story_info_padded text text' :
  padded text text' -> extract_story_info text' = extract_story_info text.
Proof.
  intros Hpad.
  pose proof (scan_split_by heading_re heading_re_productive text) as Hsplit.
  destruct (split_by_padded _ heading_re_hash_led heading_re_ends_tight _ _ _ _ Hpad Hsplit)
    as (pre' & secs' & Hsplit' & _ & Hsecs).
  rewrite (extract_story_info_fold _ _ _ Hsplit), (extract_story_info_fold _ _ _ Hsplit').
  f_equal. by apply fold_store_padded.
Qed.

(** X2. [generate_story] strips the response before it parses it; the story is
    the one parsed from the response as it is. *)
Theorem extract_story_info_strip text :
  extract_story_info (strip text) = extract_story_info text.
Proof. symmetry. apply extract_story_info_padded, strip_split. Qed.

Lemma panel_loop_padded_length (bs bs' : list str) :
  Forall2 padded bs bs' -> length (panel_loop bs') = length (panel_loop bs).
Proof.
  rewrite !panel_loop_flat_map.
  induction 1 as [|b b' bs bs' Hb _ IH]; [done|]. simpl.
  rewrite !length_app, IH, (strip_padded _ _ Hb). by destruct (truthy (strip b)).
Qed.

Lemma panel_records_padded_length text text' :
  padded text text' -> length (panel_records text') = length (panel_records text).
Proof.
  intros Hpad.
  pose proof (scan_split_by panel_re panel_re_productive text) as Hsplit.
  destruct (split_by_padded _ panel_re_hash_led panel_re_ends_tight _ _ _ _ Hpad Hsplit)
    as (pre' & blocks' & Hsplit' & Hpre & Hblocks).
  rewrite (panel_records_cut _ _ _ Hsplit), (panel_records_cut _ _ _ Hsplit').
  apply panel_loop_padded_length. constructor; [done|].
  clear -Hblocks. induction Hblocks as [|b b' bs bs' [_ Hb] _ IH]; by constructor.
Qed.

(** X3. [generate_panels] strips the response before it parses it; the
    stripped response has as many records as the response as it is, so it
    is rejected, with the same message, exactly when that one is. *)
Theorem extract_panel_info_strip_count text :
  length (panel_records (strip text)) = length (panel_records text) /\
  (forall e, extract_panel_info (strip text) = inl e <-> extract_panel_info text = inl e).
Proof.
  assert (Hlen : length (panel_records (strip text)) = length (panel_records text)).
  { symmetry. apply panel_records_padded_length, strip_split. }
  split; [done|]. intros e. unfold extract_panel_info. fold (panel_records (strip text)).
  fold (panel_records text). rewrite Hlen.
  case_bool_decide; [done|]. split; discriminate.
Qed.

(** X4. Whether [generate_panels] accepts a response that has text is settled
    by the text as the service returned it, though it is the stripped text
    that is parsed: with six records in the text as it is, the result is the
    six records of the stripped text; with another count, the [ValueError]
    whose message gives the count of the text as it is. *)
Theorem generate_panels_raw_count generate_content (api_key scenario art_style text : str) :
  generate_content api_key (txt "gemini-1.5-pro") (panel_prompt scenario art_style)
  = inr (Some text) ->
  text <> [] ->
  (length (panel_records text) = 6 ->
   generate_panels generate_content api_key scenario art_style
   = inr (panel_records (strip text)) /\
   length (panel_records (strip text)) = 6) /\
  (length (panel_records text) <> 6 ->
   generate_panels generate_content api_key scenario art_style
   = inl (Exn (ValueError (panel_count_message (length (panel_records text)))))).
Proof.
  intros Hreply Htext. unfold generate_panels. rewrite Hreply.
  destruct text as [|c text]; [done|]. simpl.
  pose proof (panel_records_padded_length _ _ (strip_split (c :: text))) as Hlen.
  unfold extract_panel_info. fold (panel_records (strip (c :: text))).
  rewrite <- Hlen. split; intros Hn; case_bool_decide; try done.
Qed.

Lemma generate_panels_raw_count_witness :
  generate_panels (fun _ _ _ => inr (Some (nl ++ sample_text ++ nl)))
    (txt "key") (txt "a hero") (txt "Manga")
  = inr (replicate 6 sample_record) /\
  generate_panels (fun _ _ _ => inr (Some preamble_text))
    (txt "key") (txt "a hero") (txt "Manga")
  = inl (Exn (ValueError (txt "Expected 6 panels, but got 7. Check Gemini's output."))).
Proof.
  split.
  - destruct (generate_panels_raw_count (fun _ _ _ => inr (Some (nl ++ sample_text ++ nl)))
                (txt "key") (txt "a hero") (txt "Manga") (nl ++ sample_text ++ nl))
      as [Hsix _]; [reflexivity|by vm_compute|].
    destruct Hsix as [-> _]; [vm_compute; reflexivity|]. vm_compute. reflexivity.
  - destruct (generate_panels_raw_count (fun _ _ _ => inr (Some preamble_text))
                (txt "key") (txt "a hero") (txt "Manga") preamble_text)
      as [_ Hother]; [reflexivity|by vm_compute|].
    rewrite Hother; [|vm_compute; lia]. vm_compute. reflexivity.
Defined.

(** X5. [generate_story] returns a story for every response that has text: the
    story parsed from the text as it is, with none but the five keys. *)
Theorem generate_story_total generate_content (api_key scenario art_style text : str) :
  generate_content api_key (txt "gemini-2.5-pro") (story_prompt scenario art_style)
  = inr (Some text) ->
  text <> [] ->
  exists story_info,
    generate_story generate_content api_key scenario art_style = inr story_info /\
    extract_story_info text = inr story_info /\
    dom story_info ⊆ list_to_set story_sections.
Proof.
  intros Hreply Htext. unfold generate_story. rewrite Hreply. simpl.
  destruct text as [|c text]; [done|]. simpl.
  rewrite <- (extract_story_info_padded _ _ (strip_split (c :: text))).
  pose proof (scan_split_by heading_re heading_re_productive (c :: text)) as Hsplit.
  rewrite (extract_story_info_fold _ _ _ Hsplit).
  eexists. split_and!; [done..|]. by apply fold_store_dom.
Qed.

Lemma generate_story_total_witness :
  exists story_info,
    generate_story (fun _ _ _ => inr (Some story_text)) (txt "key") (txt "a cat") (txt "Anime")
    = inr story_info /\
    extract_story_info story_text = inr story_info /\
    dom story_info ⊆ list_to_set story_sections.
Proof.
  apply (generate_story_total (fun _ _ _ => inr (Some story_text))); [reflexivity|].
  vm_compute. discriminate.
Defined.

End Callers.

(** * What the records and the story always are *)

Section Invariants.

Implicit Types (text block : str) (caps : list str).

Lemma join_nonempty sep cap caps : cap <> [] -> join sep (cap :: caps) <> [].
Proof. destruct cap, caps; simpl; congruence. Qed.

Lemma join_not_elem_of (c : ascii) sep caps :
  c ∉ sep -> Forall (fun cap => c ∉ cap) caps -> c ∉ join sep caps.
Proof.
  intros Hsep. induction 1 as [|cap caps Hcap _ IH]; [by apply not_elem_of_nil|].
  destruct caps as [|cap' caps]; [done|].
  change (join sep (cap :: cap' :: caps)) with (cap ++ sep ++ join sep (cap' :: caps)).
  rewrite !elem_of_app. tauto.
Qed.

(** X7. The description of a record is a stripped text of one line, whatever
    the block. *)
Theorem description_stripped_line block :
  strip (Description (panel_of_block block)) = Description (panel_of_block block) /\
  Char.newline ∉ Description (panel_of_block block).
Proof.
  unfold panel_of_block. simpl.
  destruct (re_search description_re block) as [[[pre ts] rest]|] eqn:Hs.
  - apply re_search_first in Hs as (_ & Hp & _).
    apply parses_description_re in Hp as (label & ws & cap & _ & _ & _ & _ & Hcap & ->).
    split; [apply strip_idempotent|]. intros Hin.
    apply (not_newline_not_in _ Hcap). by eapply padded_elem_of; [apply strip_split|].
  - split; [by vm_compute|]. intros Hin%list_elem_of_In.
    vm_compute in Hin. intuition discriminate.
Qed.

(** X8. The text of a record is never empty and has no double quote, whatever
    the block. *)
Theorem text_not_empty_no_quote block :
  Text (panel_of_block block) <> [] /\
  Char.dquote ∉ Text (panel_of_block block).
Proof.
  unfold panel_of_block. simpl.
  pose proof (scan_split_by text_re text_re_productive block) as Hsplit.
  rewrite (re_findall_by _ text_re_productive _ _ _ Hsplit).
  destruct (text_re_captures _ (split_by_parses _ _ _ _ Hsplit)) as [Hshape ->].
  destruct (scan text_re block).2 as [|occ occs].
  - simpl. split; [done|]. intros Hin%list_elem_of_In. vm_compute in Hin.
    intuition discriminate.
  - apply Forall_cons in Hshape as [(l & w & cap & _ & _ & _ & Hne & Hq & Hcap) Hshape].
    cbn [map]. rewrite bool_decide_eq_false_2 by done.
    split.
    + apply join_nonempty. by rewrite Hcap.
    + apply join_not_elem_of.
      * intros Hin%list_elem_of_In. vm_compute in Hin. intuition discriminate.
      * constructor; [by rewrite Hcap|]. apply Forall_map.
        eapply Forall_impl; [exact Hshape|].
        by intros occ' (? & ? & ? & _ & _ & _ & _ & ? & ->).
Qed.

Lemma store_section_stripped (m : gmap str str) sec :
  map_Forall (fun _ v => strip v = v) m ->
  map_Forall (fun _ v => strip v = v) (store_section m sec).
Proof.
  intros Hm. unfold store_section. destruct (in_list _ _); [|done].
  apply map_Forall_insert_2; [apply strip_idempotent|done].
Qed.

(** X9. Every value of the story is a stripped text. *)
Theorem story_values_stripped text :
  exists story_info,
    extract_story_info text = inr story_info /\
    map_Forall (fun _ v => strip v = v) story_info.
Proof.
  pose proof (scan_split_by heading_re heading_re_productive text) as Hsplit.
  rewrite (extract_story_info_fold _ _ _ Hsplit). eexists. split; [done|].
  generalize (scan heading_re text).2. intros secs.
  assert (H0 : map_Forall (fun (_ : str) v => strip v = v) (∅ : gmap str str))
    by apply map_Forall_empty.
  revert H0. generalize (∅ : gmap str str).
  induction secs as [|sec secs IH]; intros m Hm; [done|].
  simpl. by apply IH, store_section_stripped.
Qed.

Lemma no_hash_not_occurs r text : hash_led r -> "#"%char ∉ text -> ~ occurs r text.
Proof.
  intros Hr Hno (pre & ts & rest & -> & Hp).
  destruct (parses_hash_led _ _ Hr Hp) as (m & Hm & _). apply Hno.
  rewrite Hm, !elem_of_app. right. left. left.
Qed.

(** X10. A text without the marker [#] has no section: the story is empty. *)
Theorem extract_story_info_no_marker text :
  "#"%char ∉ text -> extract_story_info text = inr ∅.
Proof.
  intros Hno. apply (extract_story_info_fold text text []).
  by apply split_by_end, no_hash_not_occurs, Hno; apply heading_re_hash_led.
Qed.

Lemma extract_story_info_no_marker_witness :
  extract_story_info [] = inr ∅ /\
  extract_story_info (txt "Once upon a time, a cat.") = inr ∅.
Proof.
  split.
  - apply (extract_story_info_no_marker []). apply not_elem_of_nil.
  - apply (extract_story_info_no_marker (txt "Once upon a time, a cat.")).
    intros Hin%list_elem_of_In. vm_compute in Hin. intuition discriminate.
Defined.

(** X11. A text without the marker [#] is one block at most: it is rejected,
    with the count 0 when it is blank (the empty text is) and 1 otherwise. *)
Theorem extract_panel_info_no_marker text :
  "#"%char ∉ text ->
  (blank text ->
   extract_panel_info text
   = inl (ValueError (txt "Expected 6 panels, but got 0. Check Gemini's output."))) /\
  (~ blank text ->
   extract_panel_info text
   = inl (ValueError (txt "Expected 6 panels, but got 1. Check Gemini's output."))).
Proof.
  intros Hno.
  assert (Hsplit : split_by panel_re text text []).
  { by apply split_by_end, no_hash_not_occurs, Hno; apply panel_re_hash_led. }
  pose proof (panel_records_cut _ _ _ Hsplit) as Hrec. simpl in Hrec.
  split; intros Hb; rewrite extract_panel_info_mismatch; rewrite Hrec.
  - by rewrite panel_loop_cons_blank.
  - by rewrite panel_loop_cons_blank.
  - by rewrite panel_loop_cons.
  - by rewrite panel_loop_cons.
Qed.

Lemma extract_panel_info_no_marker_witness :
  extract_panel_info []
  = inl (ValueError (txt "Expected 6 panels, but got 0. Check Gemini's output.")) /\
  extract_panel_info (txt "Sorry, I cannot help with that.")
  = inl (ValueError (txt "Expected 6 panels, but got 1. Check Gemini's output.")).
Proof.
  split.
  - apply (extract_panel_info_no_marker []); [apply not_elem_of_nil|constructor].
  - apply (extract_panel_info_no_marker (txt "Sorry, I cannot help with that.")).
    + intros Hin%list_elem_of_In. vm_compute in Hin. intuition discriminate.
    + apply not_blank_check. vm_compute. reflexivity.
Defined.

Lemma extract_panel_info_records text text' :
  panel_records text = panel_records text' ->
  extract_panel_info text = extract_panel_info text'.
Proof.
  intros H. unfold extract_panel_info. fold (panel_records text) (panel_records text').
  by rewrite H.
Qed.

(** X12. The numbers of the panels play no part: two texts written with the same
    bodies under different numbers are parsed alike. *)
Theorem panel_numbers_ignored pre (ps ps' : list (str * str)) :
  ~ occurs panel_re pre -> Forall panel_written ps -> Forall panel_written ps' ->
  map snd ps = map snd ps' ->
  extract_panel_info (pre ++ concat (map panel_text ps))
  = extract_panel_info (pre ++ concat (map panel_text ps')).
Proof.
  intros Hpre Hps Hps' Hbodies. apply extract_panel_info_records.
  rewrite (panel_records_cut _ _ _ (panels_written pre ps Hpre Hps)).
  rewrite (panel_records_cut _ _ _ (panels_written pre ps' Hpre Hps')).
  by rewrite !map_map, <- !(map_ext snd (fun p => (panel_cut p).2)), Hbodies.
Qed.

End Invariants.

(** * The art style, again *)

Section ArtStyleCase.

(** X13. A valid style is chosen exactly for the entries that spell it, in any
    case of the letters and with any white space around (for [Anime], also
    for every entry that spells no style); a chosen style entered again is
    chosen again. *)
Theorem art_style_any_case (entered style : str) :
  style ∈ valid_styles ->
  (lower (strip entered) = lower style -> main_art_style entered = style) /\
  (style <> txt "Anime" -> main_art_style entered = style ->
   lower (strip entered) = lower style) /\
  main_art_style style = style.
Proof.
  intros Hstyle. split_and!.
  - intros Hl%(capitalize_style _ _ Hstyle).
    unfold main_art_style, in_list. rewrite Hl. by rewrite bool_decide_eq_true_2.
  - intros Hne. unfold main_art_style, in_list. case_bool_decide; simpl; [|done].
    intros Hcap. by apply (capitalize_style _ _ Hstyle).
  - repeat (apply elem_of_cons in Hstyle as [->|Hstyle]);
      [by vm_compute..|by apply elem_of_nil in Hstyle].
Qed.

Lemma art_style_any_case_witness :
  main_art_style (nl ++ txt " bELGIAN  ") = txt "Belgian" /\
  main_art_style (txt "Belgian") = txt "Belgian".
Proof.
  destruct (art_style_any_case (nl ++ txt " bELGIAN  ") (txt "Belgian")) as (Hany & _ & Hagain).
  - vm_compute. repeat constructor.
  - split; [|exact Hagain]. apply Hany. vm_compute. reflexivity.
Defined.

End ArtStyleCase.

(** * Responses in the format the prompts ask for *)

Section Format.

Implicit Types (s t d : str) (c : ascii).

Lemma not_elem_of_check (c : ascii) (s : str) :
  forallb (fun x => negb (Char.exactly x c)) s = true -> c ∉ s.
Proof.
  intros H Hin%list_elem_of_In. rewrite forallb_forall in H. apply H in Hin.
  unfold Char.exactly in Hin. by rewrite Nat.eqb_refl in Hin.
Qed.

Lemma story_section_written (heading : string) (content : str) :
  heading <> EmptyString ->
  forallb Char.is_word (txt heading) = true ->
  "#"%char ∉ content ->
  section_written ([Char.space], txt heading, nl ++ content ++ nl).
Proof.
  intros Hne Hword Hno. unfold section_written. cbn [fst snd]. split_and!.
  - by repeat constructor.
  - by destruct heading.
  - apply Forall_forall. intros c Hc%list_elem_of_In. rewrite forallb_forall in Hword. auto.
  - by simpl.
  - apply (no_hash_not_occurs _ _ heading_re_hash_led). rewrite !elem_of_app.
    intros [Hin|[Hin|Hin]]; [|done|]; apply list_elem_of_In in Hin; vm_compute in Hin;
      intuition discriminate.
Qed.

Lemma store_section_known (m : gmap str str) (ws name key content : str) :
  lower name = key -> in_list key story_sections = true ->
  store_section m ([["#"%char]; ws; name], content) = <[key := strip content]> m.
Proof.
  intros Hkey Hin. unfold store_section, section_key, group. cbn [heading_re groups grp fst snd nth Nat.sub].
  by rewrite Hkey, Hin.
Qed.

(** X14. A story written in the format of the prompt is parsed into its five
    sections, each content stripped. *)
Theorem format_story_round_trip (title introduction storyline climax moral : str) :
  Forall (fun content => "#"%char ∉ content) [title; introduction; storyline; climax; moral] ->
  extract_story_info (format_story title introduction storyline climax moral)
  = inr (<[txt "moral" := strip moral]>
          (<[txt "climax" := strip climax]>
            (<[txt "storyline" := strip storyline]>
              (<[txt "introduction" := strip introduction]>
                (<[txt "title" := strip title]> ∅))))).
Proof.
  intros Hall. repeat (apply Forall_cons in Hall as [? Hall]).
  pose (hs := [([Char.space], txt "Title", nl ++ title ++ nl);
               ([Char.space], txt "Introduction", nl ++ introduction ++ nl);
               ([Char.space], txt "Storyline", nl ++ storyline ++ nl);
               ([Char.space], txt "Climax", nl ++ climax ++ nl);
               ([Char.space], txt "Moral", nl ++ moral ++ nl)]).
  replace (format_story title introduction storyline climax moral)
    with ([] ++ concat (map section_text hs)).
  2:{ unfold format_story, story_section_lines. simpl.
      by rewrite <- !app_assoc, app_nil_r. }
  rewrite extract_story_info_written.
  - assert (Hpad : forall content, strip (nl ++ content ++ nl) = strip content).
    { intros content. apply strip_padded. exists nl, nl. by repeat constructor. }
    subst hs. cbn [map fold_left]. unfold section_cut. cbn [fst snd].
    rewrite (store_section_known _ [Char.space] (txt "Title") (txt "title")); [|by vm_compute..].
    rewrite (store_section_known _ [Char.space] (txt "Introduction") (txt "introduction")); [|by vm_compute..].
    rewrite (store_section_known _ [Char.space] (txt "Storyline") (txt "storyline")); [|by vm_compute..].
    rewrite (store_section_known _ [Char.space] (txt "Climax") (txt "climax")); [|by vm_compute..].
    rewrite (store_section_known _ [Char.space] (txt "Moral") (txt "moral")); [|by vm_compute..].
    by rewrite !Hpad.
  - apply (no_hash_not_occurs _ _ heading_re_hash_led), not_elem_of_nil.
  - repeat constructor; by apply story_section_written.
Qed.

Lemma length_lstrip s : length (lstrip s) <= length s.
Proof.
  induction s as [|c s IH]; simpl; [done|]. destruct (Char.is_space c); simpl; lia.
Qed.

Lemma length_strip s : length (strip s) <= length s.
Proof.
  unfold strip, rstrip. rewrite length_rev.
  etrans; [apply length_lstrip|]. rewrite length_rev. apply length_lstrip.
Qed.

(** A stripped text does not start with white space. *)
Lemma strip_fixed_head c s : strip (c :: s) = c :: s -> Char.is_space c = false.
Proof.
  intros Hfix. destruct (Char.is_space c) eqn:Hc; [|done].
  assert (Hlen : length (strip (c :: s)) <= length s).
  { unfold strip. simpl. rewrite Hc. apply (length_strip s). }
  rewrite Hfix in Hlen. simpl in Hlen. lia.
Qed.

Lemma not_newline_class s :
  Char.newline ∉ s -> Forall (fun c => Char.not_newline c = true) s.
Proof.
  intros Hno. apply Forall_forall. intros c Hc. unfold Char.not_newline.
  destruct (Char.code c =? 10) eqn:Heq; [|done].
  apply Nat.eqb_eq in Heq. destruct Hno. by rewrite <- (code_inj c Char.newline).
Qed.

Lemma not_dquote_class s :
  Char.dquote ∉ s -> Forall (fun c => Char.not_dquote c = true) s.
Proof.
  intros Hno. apply Forall_forall. intros c Hc. unfold Char.not_dquote.
  destruct (Char.code c =? 34) eqn:Heq; [|done].
  apply Nat.eqb_eq in Heq. destruct Hno. by rewrite <- (code_inj c Char.dquote).
Qed.

Lemma match_here_lit_i xs (r : regex) s :
  match_here (map (fun x => Atom (Char.ignoring_case x) One false) xs ++ r) (xs ++ s)
  = foldr add_chunk (match_here r s) (map (fun c => [c]) xs).
Proof.
  induction xs as [|x xs IH]; [done|]. cbn [map app match_here rep cls foldr].
  unfold Char.ignoring_case at 1. by rewrite Nat.eqb_refl, IH.
Qed.

(** The description line is matched, with the description as its group. *)
Lemma match_here_description d rest :
  d <> [] -> strip d = d -> Char.newline ∉ d ->
  match_here description_re (txt "Description: " ++ d ++ Char.newline :: rest)
  = Some (map (fun c => [c]) (txt "Description:") ++ [[Char.space]; d], Char.newline :: rest).
Proof.
  intros Hne Hstrip Hline. destruct d as [|c d]; [done|].
  pose proof (strip_fixed_head _ _ Hstrip) as Hc.
  apply not_newline_class, Forall_cons in Hline as [Hc' Hd].
  change (txt "Description: " ++ ?x) with (txt "Description:" ++ Char.space :: x).
  unfold description_re, lit_i. rewrite match_here_lit_i.
  cbn [match_here rep cls].
  rewrite (greedy_run _ _ [Char.space] ((c :: d) ++ Char.newline :: rest)
             ([[Char.space]; c :: d], Char.newline :: rest)).
  - by rewrite foldr_add_chunk.
  - by repeat constructor.
  - simpl. by rewrite Hc.
  - cbn [app match_here rep cls]. rewrite Hc'.
    by rewrite (greedy_run _ _ d (Char.newline :: rest) ([c :: d], Char.newline :: rest)).
Qed.

(** The dialogue line is matched, with the quoted text as its group. *)
Lemma match_here_dialogue t rest :
  t <> [] -> Char.dquote ∉ t ->
  match_here text_re (txt "Text: " ++ Char.dquote :: t ++ Char.dquote :: rest)
  = Some (map (fun c => [c]) (txt "Text:") ++ [[Char.space]; [Char.dquote]; t; [Char.dquote]],
          rest).
Proof.
  intros Hne Hq. destruct t as [|c t]; [done|].
  apply not_dquote_class, Forall_cons in Hq as [Hc Ht].
  change (txt "Text: " ++ ?x) with (txt "Text:" ++ Char.space :: x).
  unfold text_re, lit_i. rewrite match_here_lit_i.
  cbn [match_here rep cls].
  rewrite (greedy_run _ _ [Char.space] (Char.dquote :: (c :: t) ++ Char.dquote :: rest)
             ([[Char.space]; [Char.dquote]; c :: t; [Char.dquote]], rest)).
  - by rewrite foldr_add_chunk.
  - by repeat constructor.
  - by simpl.
  - cbn [app match_here rep cls]. unfold Char.exactly at 1. rewrite Nat.eqb_refl, Hc.
    rewrite (greedy_run _ _ t (Char.dquote :: rest) ([c :: t; [Char.dquote]], rest));
      [done..| |]; [by simpl|].
    cbn [app match_here rep cls]. unfold Char.exactly at 1. by rewrite Nat.eqb_refl.
Qed.

Lemma first_of (q : ascii) (l1 l2 r1 r2 : str) :
  q ∉ l1 -> q ∉ l2 -> l1 ++ q :: r1 = l2 ++ q :: r2 -> l1 = l2.
Proof.
  revert l2. induction l1 as [|x l1 IH]; intros [|y l2] H1 H2 Heq; simpl in *; try done.
  - injection Heq as -> _. destruct H2. left.
  - injection Heq as -> _. destruct H1. left.
  - injection Heq as -> Heq. f_equal. apply (IH l2); [| |done].
    + intros Hin. apply H1. by right.
    + intros Hin. apply H2. by right.
Qed.

Lemma lower_elem_of c s : c ∈ s -> Char.lower c ∈ lower s.
Proof. intros Hc. unfold lower. apply list_elem_of_In, in_map. by apply list_elem_of_In. Qed.

Lemma regroup_quoted (a b c d : str) (q : ascii) :
  (a ++ b ++ q :: c ++ [q]) ++ d = (a ++ b) ++ q :: (c ++ q :: d).
Proof. rewrite <- !app_assoc. simpl. by rewrite <- !app_assoc. Qed.

(** No dialogue starts in a text without a double quote that comes before a
    dialogue. *)
Lemma no_dialogue_before u rest :
  Char.dquote ∉ u -> u <> [] ->
  match_here text_re (u ++ txt "Text: " ++ Char.dquote :: rest) = None.
Proof.
  intros Hq Hu.
  destruct (match_here text_re (u ++ txt "Text: " ++ Char.dquote :: rest))
    as [[ts rest']|] eqn:Hm; [|done]. exfalso.
  apply match_here_sound in Hm as [Hp Heq].
  apply parses_text_re in Hp as (label & ws & cap & -> & Hl & Hws & _).
  rewrite concat_app, concat_singletons in Heq.
  change (concat [ws; [Char.dquote]; cap; [Char.dquote]])
    with (ws ++ Char.dquote :: cap ++ [Char.dquote] ++ []) in Heq.
  rewrite app_nil_r, regroup_quoted, (app_assoc u) in Heq.
  assert (Hql : Char.dquote ∉ label ++ ws).
  { rewrite elem_of_app. intros [Hin|Hin].
    - apply lower_elem_of in Hin. rewrite Hl in Hin. apply list_elem_of_In in Hin.
      vm_compute in Hin. intuition discriminate.
    - eapply Forall_forall in Hws; [|exact Hin]. by vm_compute in Hws. }
  assert (Hqu : Char.dquote ∉ u ++ txt "Text: ").
  { rewrite elem_of_app. intros [Hin|Hin%list_elem_of_In]; [done|].
    vm_compute in Hin. intuition discriminate. }
  apply first_of in Heq; [|done..].
  apply (lower_length label (txt "text:")) in Hl.
  change (length (txt "text:")) with 5 in Hl.
  destruct ws as [|x ws _] using rev_ind.
  - rewrite app_nil_r in Heq. rewrite <- Heq, length_app in Hl.
    change (length (txt "Text: ")) with 6 in Hl. lia.
  - change (txt "Text: ") with (txt "Text:" ++ [Char.space]) in Heq.
    rewrite !app_assoc in Heq. apply app_inj_tail in Heq as [Heq _].
    destruct ws as [|y ws _] using rev_ind.
    + rewrite app_nil_r in Heq. rewrite <- Heq, length_app in Hl.
      change (length (txt "Text:")) with 5 in Hl. destruct u; [done|simpl in Hl; lia].
    + change (txt "Text:") with (txt "Text" ++ [":"%char]) in Heq.
      rewrite !app_assoc in Heq. apply app_inj_tail in Heq as [_ <-].
      apply blank_app in Hws as [[_ Hy]%blank_app _].
      apply Forall_cons in Hy as [Hy _]. by vm_compute in Hy.
Qed.

Lemma search_description_line d rest :
  d <> [] -> strip d = d -> Char.newline ∉ d ->
  re_search description_re (nl ++ txt "Description: " ++ d ++ nl ++ rest)
  = Some (nl, map (fun c => [c]) (txt "Description:") ++ [[Char.space]; d], nl ++ rest).
Proof.
  intros Hd Hstrip Hline.
  apply (re_search_skip description_re nl (txt "Description: " ++ d ++ nl ++ rest)).
  - intros a u Hau Hu. destruct a as [|x a].
    + simpl in Hau. by subst u.
    + destruct a, u; simpl in Hau; done.
  - by apply match_here_description.
Qed.

Lemma findall_dialogue_line pre t :
  Char.dquote ∉ pre -> t <> [] -> Char.dquote ∉ t ->
  re_findall text_re (pre ++ txt "Text: " ++ Char.dquote :: t ++ Char.dquote :: nl) = [t].
Proof.
  intros Hpre Ht Htq. rewrite (re_findall_unfold _ text_re_productive).
  assert (Hskip : forall a u, pre = a ++ u -> u <> [] ->
            match_here text_re (u ++ txt "Text: " ++ Char.dquote :: t ++ Char.dquote :: nl)
            = None).
  { intros a u -> Hu. apply no_dialogue_before; [|done].
    intros Hin. apply Hpre. rewrite elem_of_app. by right. }
  rewrite (re_search_skip text_re pre _ _ _ Hskip (match_here_dialogue t nl Ht Htq)).
  unfold text_re at 1, lit_i. rewrite groups_lit by done. by vm_compute.
Qed.

(** The lines of a writable record are parsed into the record. *)
Lemma panel_of_block_lines (panel : PanelInfo) :
  writable panel -> panel_of_block (panel_lines panel) = panel.
Proof.
  destruct panel as [d t]. unfold writable, panel_lines. cbn [Description Text].
  intros (Hd & Hstrip & Hline & Hdq & _ & Ht & Htq & _).
  unfold panel_of_block. f_equal.
  - rewrite search_description_line by done.
    unfold group, description_re, lit_i. rewrite groups_lit by done. exact Hstrip.
  - replace (nl ++ txt "Description: " ++ d ++ nl ++
             txt "Text: " ++ [Char.dquote] ++ t ++ [Char.dquote] ++ nl)
      with ((nl ++ txt "Description: " ++ d ++ nl) ++
            txt "Text: " ++ Char.dquote :: t ++ Char.dquote :: nl)
      by (by rewrite <- !app_assoc).
    rewrite findall_dialogue_line; [done| |done..].
    rewrite !elem_of_app.
    intros [Hin|[Hin|[Hin|Hin]]]; [| |done|];
      apply list_elem_of_In in Hin; vm_compute in Hin; intuition discriminate.
Qed.

Lemma panel_lines_written (ds : str) (panel : PanelInfo) :
  ds <> [] -> Forall (fun c => Char.is_digit c = true) ds -> writable panel ->
  panel_written (ds, panel_lines panel) /\ ~ blank (panel_lines panel).
Proof.
  intros Hne Hds (_ & _ & _ & _ & Hdh & _ & _ & Hth). split.
  - unfold panel_written. cbn [fst snd]. split_and!; [done..|by simpl|].
    apply (no_hash_not_occurs _ _ panel_re_hash_led). unfold panel_lines.
    rewrite !elem_of_app.
    intros [Hin|[Hin|[Hin|[Hin|[Hin|[Hin|[Hin|[Hin|Hin]]]]]]]]; try done;
      apply list_elem_of_In in Hin; vm_compute in Hin; intuition discriminate.
  - unfold panel_lines. intros [_ [Hb _]%blank_app]%blank_app.
    apply Forall_cons in Hb as [Hb _]. by vm_compute in Hb.
Qed.

(** X15. Six writable records, written in the format of the prompt under any
    numbers, are parsed into the same six records. *)
Theorem format_panels_round_trip (numbered : list (str * PanelInfo)) :
  length numbered = 6 ->
  Forall (fun np => np.1 <> [] /\ Forall (fun c => Char.is_digit c = true) np.1 /\
                    writable np.2) numbered ->
  extract_panel_info (concat (map format_panel numbered)) = inr (map snd numbered).
Proof.
  intros Hlen Hall.
  pose proof (extract_panel_info_written [] (map (fun np => (np.1, panel_lines np.2)) numbered))
    as Hparse.
  rewrite !map_map in Hparse. cbn [app fst snd] in Hparse.
  rewrite (map_ext _ format_panel) in Hparse by done.
  rewrite Hparse.
  - f_equal. apply map_ext_Forall. eapply Forall_impl; [exact Hall|].
    intros [ds panel] (_ & _ & Hw). by apply panel_of_block_lines.
  - constructor.
  - apply Forall_map. eapply Forall_impl; [exact Hall|].
    intros [ds panel] (? & ? & ?). by apply panel_lines_written.
  - by rewrite length_map.
  - apply Forall_map. eapply Forall_impl; [exact Hall|].
    intros [ds panel] (? & ? & ?). by apply (panel_lines_written ds).
Qed.

Lemma sample_record_writable : writable sample_record.
Proof.
  unfold writable. split_and!; try done; try (by vm_compute);
    apply not_elem_of_check; vm_compute; reflexivity.
Qed.

Lemma numbered_samples_writable :
  Forall (fun np => np.1 <> [] /\ Forall (fun c => Char.is_digit c = true) np.1 /\
                    writable np.2) numbered_samples /\
  Forall (fun np => np.1 <> [] /\ Forall (fun c => Char.is_digit c = true) np.1 /\
                    writable np.2) samples_numbered_one.
Proof.
  unfold samples_numbered_one, numbered_samples. cbn [map fst snd].
  split; repeat (constructor; [split_and!; [done|by repeat constructor|
                                            apply sample_record_writable]|]);
    constructor.
Qed.

Lemma format_story_round_trip_witness :
  extract_story_info
    (format_story (txt " The Brave Cat") (txt "A cat lives in a city.")
       (txt "It meets a dog.") (txt "The cat jumps.") (txt "Be kind. "))
  = inr (<[txt "moral" := strip (txt "Be kind. ")]>
          (<[txt "climax" := strip (txt "The cat jumps.")]>
            (<[txt "storyline" := strip (txt "It meets a dog.")]>
              (<[txt "introduction" := strip (txt "A cat lives in a city.")]>
                (<[txt "title" := strip (txt " The Brave Cat")]> ∅))))).
Proof.
  apply format_story_round_trip.
  repeat constructor; apply not_elem_of_check; vm_compute; reflexivity.
Defined.

Lemma format_panels_round_trip_witness :
  extract_panel_info (concat (map format_panel numbered_samples))
  = inr (map snd numbered_samples).
Proof.
  apply format_panels_round_trip; [reflexivity|].
  apply numbered_samples_writable.
Defined.

Lemma panel_bodies_written (numbered : list (str * PanelInfo)) :
  Forall (fun np => np.1 <> [] /\ Forall (fun c => Char.is_digit c = true) np.1 /\
                    writable np.2) numbered ->
  Forall panel_written (panel_bodies numbered).
Proof.
  intros Hall. apply Forall_map. eapply Forall_impl; [exact Hall|].
  intros [ds panel] (? & ? & ?). by apply panel_lines_written.
Qed.

Lemma panel_numbers_ignored_witness :
  extract_panel_info ([] ++ concat (map panel_text (panel_bodies numbered_samples)))
  = extract_panel_info ([] ++ concat (map panel_text (panel_bodies samples_numbered_one))).
Proof.
  apply panel_numbers_ignored.
  - apply (no_hash_not_occurs _ _ panel_re_hash_led), not_elem_of_nil.
  - apply panel_bodies_written, numbered_samples_writable.
  - apply panel_bodies_written, numbered_samples_writable.
  - reflexivity.
Defined.

End Format.

(** * What comes before the first delimiter or heading, and how many there are *)

Section Preamble.

Lemma length_panel_loop (bs : list str) : length (panel_loop bs) <= length bs.
Proof.
  rewrite panel_loop_flat_map. induction bs as [|b bs IH]; simpl; [done|].
  rewrite length_app. destruct (truthy (strip b)); simpl; lia.
Qed.

(** X16. A text with fewer than five delimiters is rejected: the records are at
    most one more than the delimiters. *)
Theorem too_few_delimiters (text pre : str) (blocks : list (list str * str)) :
  split_by panel_re text pre blocks ->
  length blocks < 5 ->
  length (panel_records text) <= length blocks + 1 /\
  extract_panel_info text
  = inl (ValueError (panel_count_message (length (panel_records text)))).
Proof.
  intros Hsplit Hfew.
  assert (Hle : length (panel_records text) <= length blocks + 1).
  { rewrite (panel_records_cut _ _ _ Hsplit). etrans; [apply length_panel_loop|].
    simpl. rewrite length_map. lia. }
  split; [done|]. apply extract_panel_info_mismatch. lia.
Qed.

Lemma too_few_delimiters_witness :
  extract_panel_info (txt "# Panel 1 Description: a # Panel 2 Description: b")
  = inl (ValueError (panel_count_message
           (length (panel_records (txt "# Panel 1 Description: a # Panel 2 Description: b"))))).
Proof.
  eapply too_few_delimiters.
  - apply scan_split_by, panel_re_productive.
  - vm_compute. lia.
Defined.

(** X17. What a response says before the first heading of a story written as the
    prompt asks plays no part. *)
Theorem story_preamble_ignored (pre : str) (hs : list (str * str * str)) :
  ~ occurs heading_re pre -> Forall section_written hs ->
  extract_story_info (pre ++ concat (map section_text hs))
  = extract_story_info (concat (map section_text hs)).
Proof.
  intros Hpre Hhs. rewrite (extract_story_info_written pre hs Hpre Hhs).
  symmetry. apply (extract_story_info_written [] hs); [|done].
  apply (no_hash_not_occurs _ _ heading_re_hash_led), not_elem_of_nil.
Qed.

Lemma story_preamble_ignored_witness :
  extract_story_info (txt "Sure! Here is your story:" ++ nl ++ concat (map section_text two_sections))
  = extract_story_info (concat (map section_text two_sections)).
Proof.
  rewrite app_assoc. apply story_preamble_ignored.
  - apply (no_hash_not_occurs _ _ heading_re_hash_led), not_elem_of_check.
    vm_compute. reflexivity.
  - repeat constructor; apply story_section_written; try done;
      apply not_elem_of_check; vm_compute; reflexivity.
Defined.

End Preamble.
